(** * Coalescing small Parquet row groups: a model of [bin/coalesce_parquet.py]

    The development follows the Python module function by function.  The
    generic batching generator [coalesce] is embedded over an explicit model
    of a generator run; the sink, the fragment source, the orchestrator and
    the command-line entry point are embedded over an interface (a type class)
    that stands for the [pyarrow] primitives and the process environment they
    are called with. *)

From Stdlib Require Import ZArith Lia.
From stdpp Require Import base option list gmap strings.

Open Scope Z_scope.

(** ** Exceptions and generator runs *)

(** The exceptions a run can end with.  [SchemaMismatchError] is what
    [table.cast(schema)] raises, [ConcatError] what [pa.concat_tables] raises,
    [FormatError] what the Parquet reader raises, [IndexError] what [argv[i]]
    raises on a short argument list. *)
Inductive exn : Type :=
| SchemaMismatchError
| ConcatError
| FormatError
| IndexError.

(** What a call leaves behind: a returned value or a raised exception. *)
Inductive result (A : Type) : Type :=
| Returned (a : A)
| Raised (e : exn).
Arguments Returned {A} a.
Arguments Raised {A} e.

(** A call made for its effect, followed by [return b]. *)
Definition returning {A B : Type} (b : B) (r : result A) : result B :=
  match r with
  | Returned _ => Returned b
  | Raised e => Raised e
  end.

(** One (finite) run of a Python iterable, as its consumer sees it through
    [next]: it yields an item and goes on, it is exhausted, or the pull raises. *)
Inductive Iterable (A : Type) : Type :=
| StopIteration
| Yield (a : A) (rest : Iterable A)
| Raise (e : exn).
Arguments StopIteration {A}.
Arguments Yield {A} a rest.
Arguments Raise {A} e.

(** A list seen as an iterable: it yields its elements and is exhausted. *)
Fixpoint of_list {A : Type} (l : list A) : Iterable A :=
  match l with
  | [] => StopIteration
  | a :: l' => Yield a (of_list l')
  end.

(** The items a run yields, in order, up to its end. *)
Fixpoint yielded {A : Type} (s : Iterable A) : list A :=
  match s with
  | Yield a rest => a :: yielded rest
  | _ => []
  end.

(** [yield from s1] followed by the rest of the generator [s2]: an exception
    in [s1] ends the whole run. *)
Fixpoint chain {A : Type} (s1 s2 : Iterable A) : Iterable A :=
  match s1 with
  | StopIteration => s2
  | Yield a rest => Yield a (chain rest s2)
  | Raise e => Raise e
  end.

(** A generator expression [(f(x) for x in s)] whose body may raise. *)
Fixpoint genexp {A B : Type} (f : A -> result B) (s : Iterable A) : Iterable B :=
  match s with
  | StopIteration => StopIteration
  | Yield a rest =>
      match f a with
      | Returned b => Yield b (genexp f rest)
      | Raised e => Raise e
      end
  | Raise e => Raise e
  end.

(** ** [coalesce] *)

Section Coalesce.
Context {T : Type}.

(** The two local variables of the generator: [batch] and [current_size]. *)
Record acc : Type := { batch : list T; current_size : Z }.

(** [batch = []; current_size = 0] *)
Definition acc_init : acc := {| batch := []; current_size := 0 |}.

(** The body of the [for] loop on one item: the group it yields, if any, and
    the local variables after it.
<<
        this_size = sizer(item)
        if current_size + this_size > max_size:
            yield batch
            batch = []
            current_size = 0
        batch.append(item)
        current_size += this_size
>> *)
Definition coalesce_body (max_size : Z) (sizer : T -> Z) (st : acc) (item : T)
  : option (list T) * acc :=
  let this_size := sizer item in
  if current_size st + this_size >? max_size
  then (Some (batch st), {| batch := [] ++ [item]; current_size := 0 + this_size |})
  else (None, {| batch := batch st ++ [item];
                 current_size := current_size st + this_size |}).

(** The loop over the items, then [if batch: yield batch].  An exception of
    the input ends the generator where it is raised. *)
Fixpoint coalesce_loop (max_size : Z) (sizer : T -> Z) (st : acc)
  (items : Iterable T) : Iterable (list T) :=
  match items with
  | StopIteration =>
      match batch st with
      | [] => StopIteration
      | _ :: _ => Yield (batch st) StopIteration
      end
  | Yield item rest =>
      match coalesce_body max_size sizer st item with
      | (Some group, st') => Yield group (coalesce_loop max_size sizer st' rest)
      | (None, st') => coalesce_loop max_size sizer st' rest
      end
  | Raise e => Raise e
  end.

(** [coalesce(items, max_size, sizer)].  The default [sizer=len] is supplied
    by the caller in this embedding. *)
Definition coalesce (items : Iterable T) (max_size : Z) (sizer : T -> Z)
  : Iterable (list T) :=
  coalesce_loop max_size sizer acc_init items.

(** [list(coalesce(xs, max_size, sizer))] for a list [xs]: the emitted groups. *)
Definition groups (xs : list T) (max_size : Z) (sizer : T -> Z) : list (list T) :=
  yielded (coalesce (of_list xs) max_size sizer).

(** The local variables after the loop has consumed the items [xs], and the
    groups yielded meanwhile. *)
Fixpoint coalesce_run (max_size : Z) (sizer : T -> Z) (st : acc) (xs : list T)
  : list (list T) * acc :=
  match xs with
  | [] => ([], st)
  | item :: rest =>
      let '(out, st') := coalesce_body max_size sizer st item in
      let '(outs, st'') := coalesce_run max_size sizer st' rest in
      (option_list out ++ outs, st'')
  end.

(** The total size of a group: the sum of [sizer] over its items. *)
Definition group_size (sizer : T -> Z) (g : list T) : Z :=
  foldr (fun x s => sizer x + s) 0 g.

(** A group that consists of one item whose own size exceeds the budget. *)
Definition oversized_singleton (max_size : Z) (sizer : T -> Z) (g : list T) : bool :=
  match g with
  | [x] => sizer x >? max_size
  | _ => false
  end.

(** The input starts with an item whose own size exceeds the budget. *)
Definition first_oversized (max_size : Z) (sizer : T -> Z) (xs : list T) : bool :=
  match xs with
  | x :: _ => sizer x >? max_size
  | [] => false
  end.

(** Loop invariant: [current_size] is the size of [batch]. *)
Definition acc_sized (sizer : T -> Z) (st : acc) : Prop :=
  current_size st = group_size sizer (batch st).

(** Loop invariant: the running batch respects the budget unless it is one
    oversized item. *)
Definition acc_within (max_size : Z) (sizer : T -> Z) (st : acc) : Prop :=
  oversized_singleton max_size sizer (batch st) = false ->
  group_size sizer (batch st) <= max_size.

End Coalesce.
Arguments acc T : clear implicits.

(** ** The external primitives

    What the module calls and does not define: the [pyarrow] tables, schemas
    and record batches with the operations used on them, the Parquet reader,
    directory globbing and the process argument list.  The input side (what
    [glob] finds and what the reader yields for a path) is a fixed environment;
    the output side is the file system the writer changes, modelled below. *)
Class Externals : Type := {
  Schema : Type;
  Table : Type;
  RecordBatch : Type;
  (** [table.schema] *)
  schema : Table -> Schema;
  (** [len(table)]: the number of rows *)
  len : Table -> Z;
  (** [table.nbytes] *)
  nbytes : Table -> Z;
  (** [table.cast(schema)]; [None] when the cast raises *)
  cast : Table -> Schema -> option Table;
  (** [table.slice(offset, length)] *)
  slice : Table -> Z -> Z -> Table;
  (** [pa.concat_tables(group)]; [None] when it raises *)
  concat_tables : list Table -> option Table;
  (** [pa.Table.from_batches(batches)] *)
  from_batches : list RecordBatch -> Table;
  (** [pq.ParquetFile(path).iter_batches()] *)
  iter_batches : string -> Iterable RecordBatch;
  (** [Path(directory).glob(pattern)] *)
  glob : string -> string -> list string;
  (** [sys.argv] *)
  sys_argv : list string
}.

(** A written Parquet file: the schema the writer was opened with and the
    row groups written so far, each one held as the table of its rows. *)
Record ParquetFile `{Externals} : Type := {
  file_schema : Schema;
  row_groups : list Table
}.

Section Pipeline.
Context `{Externals}.

(** [pq.ParquetWriter(path, schema)]: creates (or truncates) the file. *)
Definition ParquetWriter (path : string) (sch : Schema)
  (fs : gmap string ParquetFile) : gmap string ParquetFile :=
  <[path := {| file_schema := sch; row_groups := [] |}]> fs.

(** The most rows the writer puts into one row group when [write_table] is
    called without a [row_group_size], as the sink does: [1024 * 1024]. *)
Definition max_row_group_length : Z := 1024 * 1024.

(** The row groups one [writer.write_table(table)] call writes.  A table of
    at most [max_row_group_length] rows (also one without rows) is written as
    one row group.  A larger one is written chunk by chunk,
<<
    for (chunk = 0; chunk * chunk_size < num_rows; chunk++)
      WriteRowGroup(chunk * chunk_size, min(chunk_size, num_rows - offset))
>>
    each row group being the slice of the table at that offset. *)
Definition row_group_chunks (table : Table) : list Table :=
  let num_rows := len table in
  if num_rows <=? max_row_group_length then [table]
  else
    map (fun chunk =>
           slice table (chunk * max_row_group_length)
             (Z.min max_row_group_length (num_rows - chunk * max_row_group_length)))
        (seqZ 0 ((num_rows + max_row_group_length - 1) / max_row_group_length)).

(** The row groups written by [write_table] calls on the tables, in order. *)
Definition row_groups_of (tables : list Table) : list Table :=
  concat (map row_group_chunks tables).

(** [writer.write_table(table)]: appends the row groups of the table to the
    open file. *)
Definition write_table (path : string) (table : Table)
  (fs : gmap string ParquetFile) : gmap string ParquetFile :=
  alter (fun f => {| file_schema := file_schema f;
                     row_groups := row_groups f ++ row_group_chunks table |}) path fs.

(** The loop of [stream_to_parquet] inside the [with] block:
<<
        for table in tables:
            table = table.cast(schema)  # enforce schema
            writer.write_table(table)
>>
    Leaving the block, normally or by an exception, closes the writer. *)
Fixpoint write_tables (path : string) (sch : Schema) (tables : Iterable Table)
  (fs : gmap string ParquetFile) : gmap string ParquetFile * result unit :=
  match tables with
  | StopIteration => (fs, Returned tt)
  | Yield table rest =>
      match cast table sch with
      | Some table' => write_tables path sch rest (write_table path table' fs)
      | None => (fs, Raised SchemaMismatchError)
      end
  | Raise e => (fs, Raised e)
  end.

(** [stream_to_parquet(path, tables)] *)
Definition stream_to_parquet (path : string) (tables : Iterable Table)
  (fs : gmap string ParquetFile) : gmap string ParquetFile * result unit :=
  match tables with
  | StopIteration => (fs, Returned tt)
  | Yield first rest =>
      let sch := schema first in
      let fs := ParquetWriter path sch fs in
      let fs := write_table path first fs in
      write_tables path sch rest fs
  | Raise e => (fs, Raised e)
  end.

(** [stream_from_parquet(path)] *)
Definition stream_from_parquet (path : string) : Iterable Table :=
  genexp (fun batch_ => Returned (from_batches [batch_])) (iter_batches path).

(** [stream_from_dir(directory, pattern="*.parquet")] *)
Definition stream_from_dir (directory : string) (pattern : option string)
  : Iterable Table :=
  let pattern := default "*.parquet"%string pattern in
  foldr (fun path rest => chain (stream_from_parquet path) rest)
        StopIteration (glob directory pattern).

(** [pa.concat_tables(group)] as the body of the generator expression. *)
Definition concat_group (group : list Table) : result Table :=
  match concat_tables group with
  | Some table => Returned table
  | None => Raised ConcatError
  end.

(** [coalese_parquets(in_directory, pattern, outpath, max_size=2**20)] *)
Definition coalese_parquets (in_directory pattern outpath : string)
  (max_size : option Z) (fs : gmap string ParquetFile)
  : gmap string ParquetFile * result unit :=
  let max_size := default (2 ^ 20) max_size in
  let tables := stream_from_dir in_directory (Some pattern) in
  let table_groups := coalesce tables max_size len in
  let coalesced_tables := genexp concat_group table_groups in
  stream_to_parquet outpath coalesced_tables fs.

(** [main(argv=None)] *)
Definition main (argv : option (list string)) (fs : gmap string ParquetFile)
  : gmap string ParquetFile * result Z :=
  let argv := match argv with None => drop 1 sys_argv | Some argv => argv end in
  match argv !! 0%nat, argv !! 1%nat, argv !! 2%nat with
  | Some a0, Some a1, Some a2 =>
      let '(fs', r) := coalese_parquets a0 a1 a2 None fs in
      (fs', returning 0 r)
  | _, _, _ => (fs, Raised IndexError)
  end.

End Pipeline.

(** ** A concrete instance of the external primitives

    Tables are lists of rows of integers under a list of column names; the
    cast succeeds on a table that already has the target column names; the
    input directory ["in"] holds two files. *)
Module Sample.

Record table : Type := { columns : list string; rows : list (list Z) }.

#[local] Instance table_eq_dec : EqDecision table.
Proof. solve_decision. Defined.

Definition table_cast (t : table) (sch : list string) : option table :=
  if decide (columns t = sch) then Some t else None.

Definition table_concat (group : list table) : option table :=
  match group with
  | [] => None
  | t :: _ =>
      if forallb (fun u => bool_decide (columns u = columns t)) group
      then Some {| columns := columns t; rows := concat (map rows group) |}
      else None
  end.

Definition table_slice (t : table) (offset length : Z) : table :=
  {| columns := columns t;
     rows := take (Z.to_nat length) (drop (Z.to_nat offset) (rows t)) |}.

Definition table_from_batches (batches : list table) : table :=
  match batches with
  | [] => {| columns := []; rows := [] |}
  | t :: _ => {| columns := columns t; rows := concat (map rows batches) |}
  end.

Definition ab (r : list (list Z)) : table := {| columns := ["a"; "b"]%string; rows := r |}.

(** Three fragments of 3, 3 and 2 rows, and a table that lacks column ["b"]. *)
Definition frag0 : table := ab [[1; 2]; [3; 4]; [5; 6]].
Definition frag1 : table := ab [[7; 8]; [9; 10]; [11; 12]].
Definition frag2 : table := ab [[13; 14]; [15; 16]].
Definition only_a : table := {| columns := ["a"]%string; rows := [[17]] |}.

Definition file_batches (path : string) : Iterable table :=
  if decide (path = "in/0.parquet"%string) then of_list [frag0; frag1]
  else if decide (path = "in/1.parquet"%string) then of_list [frag2]
  else Raise FormatError.

Definition dir_glob (directory pattern : string) : list string :=
  if decide (directory = "in"%string)
  then ["in/0.parquet"; "in/1.parquet"]%string
  else [].

Definition externals : Externals := {|
  Schema := list string;
  Table := table;
  RecordBatch := table;
  schema := columns;
  len := fun t => Z.of_nat (length (rows t));
  nbytes := fun t => 8 * Z.of_nat (length (concat (rows t)));
  cast := table_cast;
  slice := table_slice;
  concat_tables := table_concat;
  from_batches := table_from_batches;
  iter_batches := file_batches;
  glob := dir_glob;
  sys_argv := ["coalesce_parquet.py"; "in"; "*.parquet"; "out"]%string
|}.

(** A written file with columns ["a"] and ["b"] and the given row groups. *)
Definition written (gs : list table) : @ParquetFile externals :=
  @Build_ParquetFile externals ["a"; "b"]%string gs.

End Sample.

(** The same instance with an unreadable file between the two input files. *)
Module SampleBroken.

Definition dir_glob (directory pattern : string) : list string :=
  if decide (directory = "in"%string)
  then ["in/0.parquet"; "in/broken.parquet"; "in/1.parquet"]%string
  else [].

Definition externals : Externals := {|
  Schema := list string;
  Table := Sample.table;
  RecordBatch := Sample.table;
  schema := Sample.columns;
  len := fun t => Z.of_nat (length (Sample.rows t));
  nbytes := fun t => 8 * Z.of_nat (length (concat (Sample.rows t)));
  cast := Sample.table_cast;
  slice := Sample.table_slice;
  concat_tables := Sample.table_concat;
  from_batches := Sample.table_from_batches;
  iter_batches := Sample.file_batches;
  glob := dir_glob;
  sys_argv := ["coalesce_parquet.py"; "in"; "*.parquet"; "out"]%string
|}.

Definition written (gs : list Sample.table) : @ParquetFile externals :=
  @Build_ParquetFile externals ["a"; "b"]%string gs.

End SampleBroken.

(** An instance for large tables: a table is a range of consecutive rows of
    one data set, given by the number of its first row and its row count. *)
Module Ranges.

Record table : Type := { columns : list string; first_row : Z; num_rows : Z }.

#[local] Instance table_eq_dec : EqDecision table.
Proof. solve_decision. Defined.

Definition table_cast (t : table) (sch : list string) : option table :=
  if decide (columns t = sch) then Some t else None.

Definition table_slice (t : table) (offset length : Z) : table :=
  {| columns := columns t; first_row := first_row t + offset; num_rows := length |}.

Definition table_concat (group : list table) : option table :=
  match group with
  | [] => None
  | t :: _ =>
      if forallb (fun u => bool_decide (columns u = columns t)) group
      then Some {| columns := columns t; first_row := first_row t;
                   num_rows := foldr (fun u n => num_rows u + n) 0 group |}
      else None
  end.

Definition table_from_batches (batches : list table) : table :=
  match batches with
  | [] => {| columns := []; first_row := 0; num_rows := 0 |}
  | t :: _ => {| columns := columns t; first_row := first_row t;
                 num_rows := foldr (fun u n => num_rows u + n) 0 batches |}
  end.

Definition externals : Externals := {|
  Schema := list string;
  Table := table;
  RecordBatch := table;
  schema := columns;
  len := num_rows;
  nbytes := fun t => 16 * num_rows t;
  cast := table_cast;
  slice := table_slice;
  concat_tables := table_concat;
  from_batches := table_from_batches;
  iter_batches := fun _ => Raise FormatError;
  glob := fun _ _ => [];
  sys_argv := ["coalesce_parquet.py"; "in"; "*.parquet"; "out"]%string
|}.

(** The rows [first .. first + n - 1] under the columns ["a"] and ["b"]. *)
Definition range (first n : Z) : table :=
  {| columns := ["a"; "b"]%string; first_row := first; num_rows := n |}.

Definition written (gs : list table) : @ParquetFile externals :=
  @Build_ParquetFile externals ["a"; "b"]%string gs.

End Ranges.

(** * Filtering fine-mapped results: a model of [bin/filter_finemapped_results.py] *)

Module Filter.

(** The [pandas] primitives the script calls.  Each call that can raise
    returns the exception on the left. *)
Class Pandas : Type := {
  DataFrame : Type;
  PandasError : Type;
  (** [pd.DataFrame()] *)
  empty_frame : DataFrame;
  (** [len(df)]: the number of rows *)
  frame_len : DataFrame -> Z;
  (** [pd.read_csv(path, sep="\t")] *)
  read_csv : string -> PandasError + DataFrame;
  (** [pd.concat([df, other], sort=True)] *)
  concat_sorted : DataFrame -> DataFrame -> PandasError + DataFrame;
  (** [df[df['SusieRss_pip'] > 0.9]] *)
  pip_above : DataFrame -> PandasError + DataFrame
}.

(** The parsed command line: [args.inputPath] (one or more paths),
    [args.strategy] and [args.outputPath]. *)
Record Args : Type := {
  inputPath : list string;
  strategy : string;
  outputPath : string
}.

Section Script.
Context `{Pandas}.

(** The loop of [main] over the input paths, from the frame [df]:
<<
  for path in args.inputPath:
    if len(df) == 0:
      df = pd.read_csv(path, sep="\t")
    else:
      df = pd.concat([df, pd.read_csv(path, sep="\t")], sort=True)
>> *)
Fixpoint read_all (df : DataFrame) (paths : list string) : PandasError + DataFrame :=
  match paths with
  | [] => inr df
  | path :: rest =>
      if frame_len df =? 0
      then match read_csv path with
           | inr df' => read_all df' rest
           | inl e => inl e
           end
      else match read_csv path with
           | inr other =>
               match concat_sorted df other with
               | inr df' => read_all df' rest
               | inl e => inl e
               end
           | inl e => inl e
           end
  end.

(** The strategy dispatch: ['no_filter'] and any unknown strategy leave the
    frame as it is, ['naive'] keeps the rows above the threshold. *)
Definition apply_strategy (strategy : string) (df : DataFrame)
  : PandasError + DataFrame :=
  if decide (strategy = "no_filter"%string) then inr df
  else if decide (strategy = "naive"%string) then pip_above df
  else inr df.

(** [main(args)]; [df.to_csv(args.outputPath, ...)] leaves the frame at the
    output path. *)
Definition main (args : Args) (fs : gmap string DataFrame)
  : gmap string DataFrame * (PandasError + unit) :=
  match read_all empty_frame (inputPath args) with
  | inr df =>
      match apply_strategy (strategy args) df with
      | inr df' => (<[outputPath args := df']> fs, inr tt)
      | inl e => (fs, inl e)
      end
  | inl e => (fs, inl e)
  end.

End Script.

(** A concrete instance: ["header.tsv"] has a header and no row, ["rows.tsv"]
    and ["more.tsv"] have rows, any other path cannot be read. *)
Definition sample_read (path : string) : string + Sample.table :=
  if decide (path = "header.tsv"%string)
  then inr {| Sample.columns := ["old"]%string; Sample.rows := [] |}
  else if decide (path = "rows.tsv"%string) then inr Sample.frag0
  else if decide (path = "more.tsv"%string) then inr Sample.frag2
  else inl "FileNotFoundError"%string.

Definition sample_pandas : Pandas := {|
  DataFrame := Sample.table;
  PandasError := string;
  empty_frame := {| Sample.columns := []; Sample.rows := [] |};
  frame_len := fun t => Z.of_nat (length (Sample.rows t));
  read_csv := sample_read;
  concat_sorted := fun a b =>
    inr {| Sample.columns := Sample.columns a ++ Sample.columns b;
           Sample.rows := Sample.rows a ++ Sample.rows b |};
  pip_above := fun t => inr t
|}.

End Filter.

(** ** Facts about generator runs *)

Lemma yielded_of_list {A : Type} (l : list A) : yielded (of_list l) = l.
Proof. induction l as [|a l IH]; simpl; [done | by rewrite IH]. Qed.

Lemma of_list_app {A : Type} (l k : list A) :
  of_list (l ++ k) = chain (of_list l) (of_list k).
Proof. induction l as [|a l IH]; simpl; [done | by rewrite IH]. Qed.

(** ** Facts about [coalesce] *)

Section CoalesceFacts.
Context {T : Type}.
Variable max_size : Z.
Variable sizer : T -> Z.

#[local] Abbreviation body := (coalesce_body max_size sizer).
#[local] Abbreviation loop := (coalesce_loop max_size sizer).
#[local] Abbreviation run := (coalesce_run max_size sizer).
#[local] Abbreviation acc_sized := (acc_sized sizer).
#[local] Abbreviation acc_within := (acc_within max_size sizer).

(** The two outcomes of the loop body. *)
Lemma coalesce_body_close (st : acc T) (item : T) :
  max_size < current_size st + sizer item ->
  body st item = (Some (batch st), {| batch := [item]; current_size := sizer item |}).
Proof.
  intros Hgt. unfold coalesce_body.
  destruct (Z.gtb_spec (current_size st + sizer item) max_size); [done | lia].
Qed.

Lemma coalesce_body_keep (st : acc T) (item : T) :
  current_size st + sizer item <= max_size ->
  body st item = (None, {| batch := batch st ++ [item];
                           current_size := current_size st + sizer item |}).
Proof.
  intros Hle. unfold coalesce_body.
  destruct (Z.gtb_spec (current_size st + sizer item) max_size); [lia | done].
Qed.

Lemma coalesce_body_cases (st : acc T) (item : T) :
  (max_size < current_size st + sizer item /\
   body st item = (Some (batch st), {| batch := [item]; current_size := sizer item |}))
  \/ (current_size st + sizer item <= max_size /\
      body st item = (None, {| batch := batch st ++ [item];
                               current_size := current_size st + sizer item |})).
Proof.
  destruct (Z_lt_le_dec max_size (current_size st + sizer item)) as [Hgt|Hle].
  - left. split; [done | by apply coalesce_body_close].
  - right. split; [done | by apply coalesce_body_keep].
Qed.

(** The final flush: [if batch: yield batch]. *)
Lemma loop_stop (st : acc T) :
  loop st StopIteration = of_list (if decide (batch st = []) then [] else [batch st]).
Proof. simpl. by destruct (batch st). Qed.

(** On a list the generator is exhausted normally: it never raises. *)
Lemma loop_of_list (st : acc T) (xs : list T) :
  loop st (of_list xs) = of_list (yielded (loop st (of_list xs))).
Proof.
  revert st. induction xs as [|x xs IH]; intros st.
  - rewrite loop_stop. by rewrite yielded_of_list.
  - simpl. destruct (body st x) as [[g|] st']; simpl; by rewrite <- IH.
Qed.

Lemma coalesce_of_list (xs : list T) :
  coalesce (of_list xs) max_size sizer = of_list (groups xs max_size sizer).
Proof. apply loop_of_list. Qed.

(** The run over a concatenation goes through the state reached after the
    first part. *)
Lemma run_app (st : acc T) (xs ys : list T) :
  run st (xs ++ ys) =
  ((run st xs).1 ++ (run (run st xs).2 ys).1, (run (run st xs).2 ys).2).
Proof.
  revert st. induction xs as [|x xs IH]; intros st; simpl.
  - by destruct (run st ys).
  - destruct (body st x) as [out st']. rewrite IH.
    destruct (run st' xs) as [o1 s1]; simpl.
    destruct (run s1 ys) as [o2 s2]; simpl. by rewrite app_assoc.
Qed.

Lemma yielded_loop_app (st : acc T) (xs ys : list T) :
  yielded (loop st (of_list (xs ++ ys))) =
  (run st xs).1 ++ yielded (loop (run st xs).2 (of_list ys)).
Proof.
  revert st. induction xs as [|x xs IH]; intros st; [done|].
  simpl. destruct (body st x) as [[g|] st']; simpl; rewrite IH;
    by destruct (run st' xs).
Qed.

Lemma yielded_loop_run (st : acc T) (xs : list T) :
  yielded (loop st (of_list xs)) =
  (run st xs).1 ++ (if decide (batch (run st xs).2 = []) then []
                    else [batch (run st xs).2]).
Proof.
  rewrite <- (app_nil_r xs) at 1. rewrite yielded_loop_app.
  simpl of_list. by rewrite loop_stop, yielded_of_list.
Qed.

(** Nothing is lost or reordered: the groups yielded from a state, flattened,
    are the running batch followed by the remaining input. *)
Lemma concat_yielded_loop (st : acc T) (xs : list T) :
  concat (yielded (loop st (of_list xs))) = batch st ++ xs.
Proof.
  revert st. induction xs as [|x xs IH]; intros st.
  - rewrite loop_stop, yielded_of_list.
    destruct (decide (batch st = [])) as [->|_]; simpl; [done|].
    by rewrite !app_nil_r.
  - simpl. destruct (coalesce_body_cases st x) as [[_ ->]|[_ ->]]; simpl.
    + by rewrite IH.
    + rewrite IH. simpl. by rewrite <- app_assoc.
Qed.

Lemma concat_run (st : acc T) (xs : list T) :
  concat (run st xs).1 ++ batch (run st xs).2 = batch st ++ xs.
Proof.
  rewrite <- concat_yielded_loop, yielded_loop_run, concat_app.
  f_equal. destruct (decide _) as [->|_]; simpl; [done|].
  by rewrite app_nil_r.
Qed.

Lemma group_size_app (g h : list T) :
  group_size sizer (g ++ h) = group_size sizer g + group_size sizer h.
Proof. induction g as [|x g IH]; simpl; [done | rewrite IH; lia]. Qed.

Lemma group_size_nonneg (g : list T) :
  (forall y, 0 <= sizer y) -> 0 <= group_size sizer g.
Proof.
  intros Hs. induction g as [|x g IH]; simpl; [done | specialize (Hs x); lia].
Qed.

Lemma acc_sized_body (st : acc T) (x : T) :
  acc_sized st -> acc_sized (body st x).2.
Proof.
  unfold acc_sized. intros Hst.
  destruct (coalesce_body_cases st x) as [[_ ->]|[_ ->]]; simpl.
  - lia.
  - rewrite group_size_app. simpl. lia.
Qed.

Lemma acc_sized_run (st : acc T) (xs : list T) :
  acc_sized st -> acc_sized (run st xs).2.
Proof.
  revert st. induction xs as [|x xs IH]; intros st Hst; [done|].
  simpl. pose proof (acc_sized_body st x Hst) as Hb.
  destruct (body st x) as [out st']. specialize (IH st' Hb).
  by destruct (run st' xs).
Qed.

Lemma within_loop (st : acc T) (xs : list T) :
  acc_sized st -> acc_within st ->
  Forall (fun g => oversized_singleton max_size sizer g = false ->
                   group_size sizer g <= max_size)
         (yielded (loop st (of_list xs))).
Proof.
  revert st. induction xs as [|x xs IH]; intros st Hsz Hin.
  - rewrite loop_stop, yielded_of_list.
    destruct (decide _); [constructor | by repeat constructor].
  - simpl. pose proof (acc_sized_body st x Hsz) as Hsz'.
    destruct (coalesce_body_cases st x) as [[Hc Hb]|[Hc Hb]];
      rewrite Hb in Hsz' |- *; simpl in *.
    + constructor; [done|]. apply IH; [done|].
      unfold acc_within; simpl. intros Hov.
      destruct (Z.gtb_spec (sizer x) max_size); [done | lia].
    + apply IH; [done|]. intros _.
      unfold acc_sized in Hsz'. simpl in *. lia.
Qed.

(** Once the running batch is non-empty no empty group is yielded. *)
Lemma nonempty_loop (st : acc T) (xs : list T) :
  batch st <> [] ->
  Forall (fun g => g <> []) (yielded (loop st (of_list xs))).
Proof.
  revert st. induction xs as [|x xs IH]; intros st Hne.
  - rewrite loop_stop, yielded_of_list.
    destruct (decide _); [done | by repeat constructor].
  - simpl. destruct (coalesce_body_cases st x) as [[_ ->]|[_ ->]]; simpl.
    + constructor; [done|]. by apply IH.
    + apply IH. simpl. by destruct (batch st).
Qed.

End CoalesceFacts.

(** ** The properties of [coalesce] *)

(** The doctest of [coalesce]. *)
Example coalesce_doctest :
  groups [1; 2; 11; 4; 4; 1; 2] 10 (fun x => x) = [[1; 2]; [11]; [4; 4; 1]; [2]].
Proof. reflexivity. Qed.

(** C1.  For every finite sequence of items, every budget and every sizer (in
    particular every positive budget and every non-negative sizer), the
    generator is exhausted normally after yielding its groups, and the groups,
    flattened in the order they are emitted, are the input sequence itself: no
    item is lost, duplicated or reordered, across groups or within one. *)
Theorem coalesce_concat {T : Type} (xs : list T) (max_size : Z) (sizer : T -> Z) :
  coalesce (of_list xs) max_size sizer = of_list (groups xs max_size sizer)
  /\ concat (groups xs max_size sizer) = xs.
Proof.
  split.
  - apply coalesce_of_list.
  - unfold groups, coalesce. by rewrite concat_yielded_loop.
Qed.

(** C2.  For every finite sequence of items, every positive budget and every
    sizer, each emitted group that is not a single item whose own size exceeds
    the budget has a total size of at most the budget. *)
Theorem coalesce_within_budget {T : Type} (xs : list T) (max_size : Z)
  (sizer : T -> Z) :
  0 < max_size ->
  Forall (fun g => oversized_singleton max_size sizer g = false ->
                   group_size sizer g <= max_size)
         (groups xs max_size sizer).
Proof.
  intros Hm. apply within_loop.
  - reflexivity.
  - intros _. simpl. lia.
Qed.

Lemma coalesce_within_budget_witness :
  0 < 10 /\
  Forall (fun g => oversized_singleton 10 (fun x => x) g = false ->
                   group_size (fun x => x) g <= 10)
         (groups [1; 2; 11; 4; 4; 1; 2] 10 (fun x => x)).
Proof.
  split; [lia|]. apply (coalesce_within_budget [1; 2; 11; 4; 4; 1; 2] 10 (fun x => x)).
  lia.
Defined.

(** C3.  The group yielded inside the loop is not checked for emptiness: on an
    input whose first item alone exceeds the budget, the first group emitted is
    the empty list. *)
Theorem coalesce_yields_empty_group :
  groups [11] 10 (fun x => x) = [[]; [11]]
  /\ groups [11; 4; 4] 10 (fun x => x) = [[]; [11]; [4; 4]].
Proof. split; reflexivity. Qed.

(** C4.  For every finite sequence of items, every budget and every
    non-negative sizer, an item whose own size exceeds the budget is emitted as
    a group of its own: the groups before it hold exactly the items before it,
    the groups after it exactly the items after it. *)
Theorem coalesce_oversized_alone {T : Type} (max_size : Z) (sizer : T -> Z)
  (pre : list T) (x : T) (post : list T) :
  (forall y, 0 <= sizer y) ->
  max_size < sizer x ->
  exists gpre gpost,
    groups (pre ++ x :: post) max_size sizer = gpre ++ [x] :: gpost
    /\ concat gpre = pre
    /\ concat gpost = post.
Proof.
  intros Hs Hx. unfold groups, coalesce.
  rewrite yielded_loop_app.
  pose proof (concat_run max_size sizer acc_init pre) as Hcat.
  pose proof (acc_sized_run max_size sizer acc_init pre eq_refl) as Hsz.
  destruct (coalesce_run max_size sizer acc_init pre) as [o1 s1]; simpl in *.
  assert (0 <= current_size s1) as Hcur.
  { rewrite Hsz. by apply group_size_nonneg. }
  rewrite coalesce_body_close by lia.
  exists (o1 ++ [batch s1]).
  destruct post as [|y post].
  - exists []. simpl. repeat split.
    + by rewrite <- app_assoc.
    + rewrite concat_app. simpl. by rewrite app_nil_r.
  - simpl. pose proof (Hs y) as Hy.
    rewrite coalesce_body_close by (simpl; lia).
    eexists. repeat split.
    + simpl. by rewrite <- app_assoc.
    + rewrite concat_app. simpl. by rewrite app_nil_r.
    + by rewrite concat_yielded_loop.
Qed.

Lemma coalesce_oversized_alone_witness :
  exists gpre gpost,
    groups ([1; 2] ++ 11 :: [4; 4; 1; 2])%nat 10 Z.of_nat = gpre ++ [11%nat] :: gpost
    /\ concat gpre = [1; 2]%nat
    /\ concat gpost = [4; 4; 1; 2]%nat.
Proof.
  apply (coalesce_oversized_alone 10 Z.of_nat [1; 2]%nat 11%nat [4; 4; 1; 2]%nat).
  - intros y. lia.
  - lia.
Defined.

(** C5.  For every finite sequence of items, every budget and every
    non-negative sizer, an item [x] whose own size is exactly the budget joins
    the running group, which is not closed at that point: after [x] has been
    consumed it is the last item of the running batch and the running size is
    the budget.  That group is closed by the next item whose size is positive
    (the sum then exceeds the budget), is left open by a next item of size
    zero, and is emitted by the final flush when [x] ends the input. *)
Theorem coalesce_exact_item {T : Type} (max_size : Z) (sizer : T -> Z)
  (pre : list T) (x : T) :
  (forall y, 0 <= sizer y) ->
  sizer x = max_size ->
  exists out g,
    coalesce_run max_size sizer acc_init (pre ++ [x]) =
      (out, {| batch := g ++ [x]; current_size := max_size |})
    /\ concat out ++ g = pre
    /\ groups (pre ++ [x]) max_size sizer = out ++ [g ++ [x]]
    /\ (forall y post, 0 < sizer y ->
          exists rest,
            groups (pre ++ x :: y :: post) max_size sizer = out ++ (g ++ [x]) :: rest
            /\ concat rest = y :: post)
    /\ (forall y, sizer y = 0 ->
          coalesce_run max_size sizer acc_init (pre ++ [x; y]) =
            (out, {| batch := g ++ [x; y]; current_size := max_size |})).
Proof.
  intros Hs Hx.
  pose proof (concat_run max_size sizer acc_init pre) as Hcat.
  pose proof (acc_sized_run max_size sizer acc_init pre eq_refl) as Hsz.
  assert (0 <= current_size (coalesce_run max_size sizer acc_init pre).2) as Hcur.
  { rewrite Hsz. by apply group_size_nonneg. }
  assert (exists out g,
    coalesce_run max_size sizer acc_init (pre ++ [x]) =
      (out, {| batch := g ++ [x]; current_size := max_size |})
    /\ concat out ++ g = pre) as (out & g & Hrun & Hpre).
  { rewrite run_app.
    destruct (coalesce_run max_size sizer acc_init pre) as [o1 s1]; simpl in *.
    destruct (coalesce_body_cases max_size sizer s1 x) as [[Hc ->]|[Hc ->]]; simpl.
    - exists (o1 ++ [batch s1]), []. split; [by rewrite Hx|].
      rewrite concat_app. simpl. by rewrite !app_nil_r.
    - exists o1, (batch s1). split; [|done].
      rewrite app_nil_r. replace (current_size s1 + sizer x) with max_size by lia.
      done. }
  exists out, g. split; [done|]. split; [done|].
  assert (forall ys, groups (pre ++ x :: ys) max_size sizer =
            out ++ yielded (coalesce_loop max_size sizer
              {| batch := g ++ [x]; current_size := max_size |} (of_list ys)))
    as Hgroups.
  { intros ys. unfold groups, coalesce.
    change (pre ++ x :: ys) with (pre ++ [x] ++ ys).
    rewrite app_assoc, yielded_loop_app. by rewrite Hrun. }
  split; [|split].
  - rewrite Hgroups. simpl. by destruct g.
  - intros y post Hy. rewrite Hgroups. simpl.
    rewrite coalesce_body_close by (simpl; lia).
    eexists. split; [done|]. by rewrite concat_yielded_loop.
  - intros y Hy.
    change (pre ++ [x; y]) with (pre ++ [x] ++ [y]).
    rewrite app_assoc, run_app, Hrun. simpl.
    rewrite coalesce_body_keep by (simpl; lia). simpl.
    rewrite app_nil_r, <- app_assoc. simpl.
    replace (max_size + sizer y) with max_size by lia. done.
Qed.

Lemma coalesce_exact_item_witness :
  exists out g,
    coalesce_run 10 Z.of_nat acc_init ([4; 5] ++ [10])%nat =
      (out, {| batch := g ++ [10%nat]; current_size := 10 |})
    /\ concat out ++ g = [4; 5]%nat
    /\ groups ([4; 5] ++ [10])%nat 10 Z.of_nat = out ++ [g ++ [10%nat]]
    /\ (forall y post, 0 < Z.of_nat y ->
          exists rest,
            groups ([4; 5] ++ 10 :: y :: post)%nat 10 Z.of_nat =
              out ++ (g ++ [10%nat]) :: rest
            /\ concat rest = y :: post)
    /\ (forall y, Z.of_nat y = 0 ->
          coalesce_run 10 Z.of_nat acc_init ([4; 5] ++ [10; y])%nat =
            (out, {| batch := g ++ [10; y]%nat; current_size := 10 |})).
Proof.
  apply (coalesce_exact_item 10 Z.of_nat [4; 5]%nat 10%nat).
  - intros y. lia.
  - reflexivity.
Defined.

(** C10.  For every finite sequence of items, every budget and every sizer,
    an empty group is emitted exactly when the input is non-empty and its first
    item alone exceeds the budget; the empty group is then the first group and
    no other group is empty. *)
Theorem coalesce_empty_group_iff {T : Type} (xs : list T) (max_size : Z)
  (sizer : T -> Z) :
  (In [] (groups xs max_size sizer) <-> first_oversized max_size sizer xs = true)
  /\ (if first_oversized max_size sizer xs
      then exists gs, groups xs max_size sizer = [] :: gs
                      /\ Forall (fun g => g <> []) gs
      else Forall (fun g => g <> []) (groups xs max_size sizer)).
Proof.
  assert (if first_oversized max_size sizer xs
      then exists gs, groups xs max_size sizer = [] :: gs
                      /\ Forall (fun g => g <> []) gs
      else Forall (fun g => g <> []) (groups xs max_size sizer)) as Hcase.
  { destruct xs as [|x xs]; simpl; [constructor|].
    unfold groups, coalesce. simpl.
    destruct (coalesce_body_cases max_size sizer acc_init x) as [[Hc ->]|[Hc ->]];
      simpl in Hc.
    - destruct (Z.gtb_spec (sizer x) max_size); [|lia].
      simpl. eexists. split; [done|]. by apply nonempty_loop.
    - destruct (Z.gtb_spec (sizer x) max_size); [lia|].
      by apply nonempty_loop. }
  split; [|done].
  destruct (first_oversized max_size sizer xs).
  - destruct Hcase as (gs & -> & _). split; [done | intros _; by left].
  - split; [|done]. intros Hin.
    rewrite Forall_forall in Hcase. apply list_elem_of_In in Hin.
    by destruct (Hcase [] Hin).
Qed.

(** ** Facts about the sink and the orchestrator *)

Section PipelineFacts.
Context `{Externals}.

Lemma genexp_of_list {A B : Type} (f : A -> result B) (l : list A) (k : list B) :
  Forall2 (fun a b => f a = Returned b) l k ->
  genexp f (of_list l) = of_list k.
Proof.
  induction 1 as [|a b l k Hab _ IH]; simpl; [done|].
  by rewrite Hab, IH.
Qed.

Lemma concat_group_Some (group : list Table) (table : Table) :
  concat_tables group = Some table -> concat_group group = Returned table.
Proof. unfold concat_group. by intros ->. Qed.

Lemma max_row_group_length_eq : max_row_group_length = 1048576.
Proof. reflexivity. Qed.

(** A table within the writer's limit is one row group. *)
Lemma row_group_chunks_small (table : Table) :
  len table <= max_row_group_length -> row_group_chunks table = [table].
Proof.
  intros Hle. unfold row_group_chunks.
  destruct (Z.leb_spec (len table) max_row_group_length); [done | lia].
Qed.

Lemma row_groups_of_small (tables : list Table) :
  Forall (fun t => len t <= max_row_group_length) tables ->
  row_groups_of tables = tables.
Proof.
  unfold row_groups_of. induction 1 as [|t ts Ht _ IH]; simpl; [done|].
  by rewrite IH, row_group_chunks_small.
Qed.

Lemma row_groups_of_app (ts us : list Table) :
  row_groups_of (ts ++ us) = row_groups_of ts ++ row_groups_of us.
Proof. unfold row_groups_of. by rewrite map_app, concat_app. Qed.

(** A table with rows is written as as many row groups as the limit goes
    into its row count, rounded up. *)
Lemma row_group_chunks_length (table : Table) :
  0 < len table ->
  Z.of_nat (length (row_group_chunks table))
  = (len table + max_row_group_length - 1) / max_row_group_length.
Proof.
  intros Hpos. unfold row_group_chunks. rewrite max_row_group_length_eq.
  destruct (Z.leb_spec (len table) 1048576) as [Hle|Hgt].
  - simpl length. apply Z.div_unique with (r := len table - 1); lia.
  - rewrite length_map, length_seqZ.
    assert (0 <= (len table + 1048576 - 1) / 1048576) by (apply Z.div_pos; lia).
    lia.
Qed.

(** Writing to the file the writer has just been opened on, or has written
    to, appends the row groups of the table. *)
Lemma write_table_insert (path : string) (sch : Schema) (gs : list Table)
  (table : Table) (fs : gmap string ParquetFile) :
  write_table path table (<[path := {| file_schema := sch; row_groups := gs |}]> fs)
  = <[path := {| file_schema := sch; row_groups := gs ++ row_group_chunks table |}]> fs.
Proof. unfold write_table. by rewrite alter_insert_eq. Qed.

(** The loop of the sink over tables that all cast: their casts are appended,
    in order, and the loop goes on with what follows. *)
Lemma write_tables_chain (path : string) (sch : Schema) (ok ok' : list Table)
  (later : Iterable Table) (gs : list Table) (fs : gmap string ParquetFile) :
  Forall2 (fun t t' => cast t sch = Some t') ok ok' ->
  write_tables path sch (chain (of_list ok) later)
    (<[path := {| file_schema := sch; row_groups := gs |}]> fs)
  = write_tables path sch later
      (<[path := {| file_schema := sch; row_groups := gs ++ row_groups_of ok' |}]> fs).
Proof.
  intros Hok. revert gs.
  induction Hok as [|t t' ok ok' Ht _ IH]; intros gs; simpl.
  - by rewrite app_nil_r.
  - rewrite Ht, write_table_insert, IH. by rewrite <- app_assoc.
Qed.

Lemma stream_to_parquet_chain (path : string) (first : Table)
  (ok ok' : list Table) (later : Iterable Table) (fs : gmap string ParquetFile) :
  Forall2 (fun t t' => cast t (schema first) = Some t') ok ok' ->
  stream_to_parquet path (chain (of_list (first :: ok)) later) fs
  = write_tables path (schema first) later
      (<[path := {| file_schema := schema first;
                    row_groups := row_groups_of (first :: ok') |}]> fs).
Proof.
  intros Hok. cbn [of_list chain stream_to_parquet]. unfold ParquetWriter.
  rewrite write_table_insert.
  by rewrite (write_tables_chain _ _ _ _ _ _ _ Hok).
Qed.

Lemma chain_stop {A : Type} (s : Iterable A) : chain s StopIteration = s.
Proof. induction s as [|a s IH|e]; simpl; [done | by rewrite IH | done]. Qed.

(** No matching file: the fragment source yields nothing. *)
Lemma stream_from_dir_no_file (directory pattern : string) :
  glob directory pattern = [] ->
  stream_from_dir directory (Some pattern) = StopIteration.
Proof. unfold stream_from_dir. simpl. by intros ->. Qed.

(** A first fragment larger than the budget makes [coalesce] yield the empty
    group first; when [pa.concat_tables] refuses an empty list the run stops
    there, before the output file is opened. *)
Lemma coalese_parquets_first_oversized (in_directory pattern outpath : string)
  (max_size : option Z) (fs : gmap string ParquetFile)
  (first : Table) (rest : Iterable Table) :
  stream_from_dir in_directory (Some pattern) = Yield first rest ->
  default (2 ^ 20) max_size < len first ->
  concat_tables [] = None ->
  coalese_parquets in_directory pattern outpath max_size fs = (fs, Raised ConcatError).
Proof.
  intros Hsrc Hbig Hcat. unfold coalese_parquets, coalesce.
  rewrite Hsrc. simpl.
  rewrite coalesce_body_close by (simpl; lia). simpl.
  unfold concat_group. by rewrite Hcat.
Qed.

End PipelineFacts.

(** ** The properties of the sink, the orchestrator and the entry point *)

(** C6.  Given no table, the sink returns at once and leaves the file system
    as it found it: no output file is created or written.  End to end, a run
    whose fragment source yields nothing returns normally ([main] with exit
    status 0) and leaves the file system unchanged. *)
Theorem stream_to_parquet_empty `{Externals} (path : string)
  (fs : gmap string ParquetFile) :
  stream_to_parquet path StopIteration fs = (fs, Returned tt)
  /\ (forall in_directory pattern max_size,
        stream_from_dir in_directory (Some pattern) = StopIteration ->
        coalese_parquets in_directory pattern path max_size fs = (fs, Returned tt))
  /\ (forall in_directory pattern extra,
        stream_from_dir in_directory (Some pattern) = StopIteration ->
        main (Some (in_directory :: pattern :: path :: extra)) fs = (fs, Returned 0)).
Proof.
  split; [done|]. split.
  - intros d p m Hsrc. unfold coalese_parquets. by rewrite Hsrc.
  - intros d p extra Hsrc. unfold main. simpl.
    unfold coalese_parquets. by rewrite Hsrc.
Qed.

Lemma stream_to_parquet_empty_witness :
  coalese_parquets (H := Sample.externals) "void" "*.parquet" "out" None ∅
    = (∅, Returned tt)
  /\ main (H := Sample.externals) (Some ["void"; "*.parquet"; "out"]%string) ∅
    = (∅, Returned 0).
Proof.
  split.
  - apply (proj1 (proj2 (stream_to_parquet_empty (H := Sample.externals) "out" ∅))).
    reflexivity.
  - apply (proj2 (proj2 (stream_to_parquet_empty (H := Sample.externals) "out" ∅))).
    reflexivity.
Defined.

(** C7.  Given a first table followed by tables that all cast to the first
    table's schema, the sink leaves at [path] a file whose schema is the first
    table's and whose row groups are those of the first table as it is, then
    those of the casts of the others, in order.  A written table of at most
    [max_row_group_length] rows is one row group of its own; a larger one is
    split by the writer into as many row groups as the limit goes into its row
    count, rounded up.  When the next table does not cast to the schema the
    run stops with a schema mismatch, and the file holds the row groups written
    before it and nothing of that table. *)
Theorem stream_to_parquet_schema `{Externals} (path : string) (first : Table)
  (ok ok' : list Table) (fs : gmap string ParquetFile) :
  Forall2 (fun t t' => cast t (schema first) = Some t') ok ok' ->
  stream_to_parquet path (of_list (first :: ok)) fs
    = (<[path := {| file_schema := schema first;
                    row_groups := row_groups_of (first :: ok') |}]> fs,
       Returned tt)
  /\ (forall bad later,
        cast bad (schema first) = None ->
        stream_to_parquet path (chain (of_list (first :: ok)) (Yield bad later)) fs
        = (<[path := {| file_schema := schema first;
                        row_groups := row_groups_of (first :: ok') |}]> fs,
           Raised SchemaMismatchError))
  /\ (Forall (fun t => len t <= max_row_group_length) (first :: ok') ->
      row_groups_of (first :: ok') = first :: ok')
  /\ (forall t, 0 < len t ->
        Z.of_nat (length (row_group_chunks t))
        = (len t + max_row_group_length - 1) / max_row_group_length).
Proof.
  intros Hok. split; [|split; [|split]].
  - rewrite <- (chain_stop (of_list (first :: ok))).
    by rewrite (stream_to_parquet_chain _ _ _ _ _ _ Hok).
  - intros bad later Hbad.
    rewrite (stream_to_parquet_chain _ _ _ _ _ _ Hok). simpl. by rewrite Hbad.
  - apply row_groups_of_small.
  - apply row_group_chunks_length.
Qed.

Lemma stream_to_parquet_schema_witness :
  stream_to_parquet (H := Sample.externals) "out"
    (of_list [Sample.frag0; Sample.frag1; Sample.frag2]) ∅
    = (<["out"%string := Sample.written [Sample.frag0; Sample.frag1; Sample.frag2]]> ∅,
       Returned tt)
  /\ stream_to_parquet (H := Sample.externals) "out"
       (of_list [Sample.frag0; Sample.frag1; Sample.frag2; Sample.only_a; Sample.frag0]) ∅
    = (<["out"%string := Sample.written [Sample.frag0; Sample.frag1; Sample.frag2]]> ∅,
       Raised SchemaMismatchError).
Proof.
  pose proof (stream_to_parquet_schema (H := Sample.externals) "out" Sample.frag0
    [Sample.frag1; Sample.frag2] [Sample.frag1; Sample.frag2] ∅) as Hthm.
  destruct Hthm as (Hall & Hbad & Hsmall & _).
  - repeat constructor.
  - rewrite Hsmall in Hall, Hbad by (repeat constructor; by vm_compute).
    split; [exact Hall|].
    apply (Hbad Sample.only_a (of_list [Sample.frag0])). reflexivity.
Defined.

(** C7, counterexample.  A first table of 1048577 rows is not written as one
    row group: the file holds two, of 1048576 rows and of 1 row. *)
Lemma stream_to_parquet_splits_large_table :
  len (Externals := Ranges.externals) (Ranges.range 0 1048577) = 1048577
  /\ stream_to_parquet (H := Ranges.externals) "out"
       (of_list [Ranges.range 0 1048577]) ∅
     = (<["out"%string := Ranges.written
            [Ranges.range 0 1048576; Ranges.range 1048576 1]]> ∅, Returned tt)
  /\ stream_to_parquet (H := Ranges.externals) "out"
       (of_list [Ranges.range 0 1048577]) ∅
     <> (<["out"%string := Ranges.written [Ranges.range 0 1048577]]> ∅, Returned tt).
Proof.
  assert (stream_to_parquet (H := Ranges.externals) "out"
            (of_list [Ranges.range 0 1048577]) ∅
          = (<["out"%string := Ranges.written
                 [Ranges.range 0 1048576; Ranges.range 1048576 1]]> ∅, Returned tt))
    as Hrun.
  { vm_compute. reflexivity. }
  split; [reflexivity|]. split; [exact Hrun|].
  rewrite Hrun. intros Heq.
  apply (f_equal (fun r => r.1 !! "out"%string)) in Heq. cbn [fst] in Heq.
  rewrite !lookup_insert_eq in Heq. discriminate Heq.
Qed.

(** C8.  [coalese_parquets] takes the input directory, the filename pattern,
    the output path and an optional maximum group size: it coalesces with the
    size it is given and with [2 ** 20 = 1048576] when it is given none.  The
    entry point [main] reads the first three arguments only and always runs
    the orchestrator with the default size, whatever follows them; with no
    argument list it takes the process arguments after the program name. *)
Theorem main_max_size `{Externals} (fs : gmap string ParquetFile) :
  (forall in_directory pattern outpath m,
     coalese_parquets in_directory pattern outpath (Some m) fs
     = stream_to_parquet outpath
         (genexp concat_group
            (coalesce (stream_from_dir in_directory (Some pattern)) m len)) fs)
  /\ (forall in_directory pattern outpath,
        coalese_parquets in_directory pattern outpath None fs
        = coalese_parquets in_directory pattern outpath (Some 1048576) fs)
  /\ (forall a0 a1 a2 extra,
        main (Some (a0 :: a1 :: a2 :: extra)) fs
        = ((coalese_parquets a0 a1 a2 (Some 1048576) fs).1,
           returning 0 (coalese_parquets a0 a1 a2 (Some 1048576) fs).2))
  /\ main None fs = main (Some (drop 1 sys_argv)) fs.
Proof.
  split; [done|]. split; [done|]. split; [|done].
  intros a0 a1 a2 extra. unfold main. simpl.
  change (coalese_parquets a0 a1 a2 None fs)
    with (coalese_parquets a0 a1 a2 (Some 1048576) fs).
  by destruct (coalese_parquets a0 a1 a2 (Some 1048576) fs).
Qed.

(** C8, counterexample.  A run given the fourth argument ["5"] writes the
    three fragments (3, 3 and 2 rows) as one row group of 8 rows, as the
    default size has it; coalescing with the size 5 writes two row groups. *)
Lemma main_ignores_max_size_argument :
  (main (H := Sample.externals) (Some ["in"; "*.parquet"; "out"; "5"]%string) ∅).1
    !! "out"%string
  = Some (Sample.written [Sample.ab [[1; 2]; [3; 4]; [5; 6]; [7; 8]; [9; 10];
                                      [11; 12]; [13; 14]; [15; 16]]])
  /\ (coalese_parquets (H := Sample.externals) "in" "*.parquet" "out" (Some 5) ∅).1
       !! "out"%string
     = Some (Sample.written
               [Sample.ab [[1; 2]; [3; 4]; [5; 6]];
                Sample.ab [[7; 8]; [9; 10]; [11; 12]; [13; 14]; [15; 16]]])
  /\ (main (H := Sample.externals) (Some ["in"; "*.parquet"; "out"; "5"]%string) ∅).1
     <> (coalese_parquets (H := Sample.externals) "in" "*.parquet" "out" (Some 5) ∅).1.
Proof.
  assert ((main (H := Sample.externals)
             (Some ["in"; "*.parquet"; "out"; "5"]%string) ∅).1 !! "out"%string
          = Some (Sample.written [Sample.ab [[1; 2]; [3; 4]; [5; 6]; [7; 8]; [9; 10];
                                             [11; 12]; [13; 14]; [15; 16]]])) as Hmain.
  { vm_compute. reflexivity. }
  assert ((coalese_parquets (H := Sample.externals) "in" "*.parquet" "out" (Some 5) ∅).1
            !! "out"%string
          = Some (Sample.written
               [Sample.ab [[1; 2]; [3; 4]; [5; 6]];
                Sample.ab [[7; 8]; [9; 10]; [11; 12]; [13; 14]; [15; 16]]])) as Hfive.
  { vm_compute. reflexivity. }
  split; [done|]. split; [done|].
  intros Heq. rewrite Heq, Hfive in Hmain. discriminate Hmain.
Qed.

(** C9.  [coalese_parquets] has no sizer parameter: it always sizes the
    fragments by their row count.  When every row-count group concatenates and
    every concatenation after the first casts to the first one's schema, the
    tables written to the file, in order, are exactly the concatenations of
    the row-count groups (each one as the row groups the writer makes of it).
    A different sizer can only be handed to [coalesce] itself, where it can
    give a different grouping. *)
Theorem coalese_parquets_row_count `{Externals} (in_directory pattern outpath : string)
  (max_size : option Z) (fs : gmap string ParquetFile)
  (fragments : list Table) (first : Table) (others others' : list Table) :
  stream_from_dir in_directory (Some pattern) = of_list fragments ->
  Forall2 (fun group table => concat_tables group = Some table)
    (groups fragments (default 1048576 max_size) len) (first :: others) ->
  Forall2 (fun t t' => cast t (schema first) = Some t') others others' ->
  coalese_parquets in_directory pattern outpath max_size fs
    = (<[outpath := {| file_schema := schema first;
                       row_groups := row_groups_of (first :: others') |}]> fs,
       Returned tt)
  /\ exists (xs : list (list Z)) (m : Z) (sizer : list Z -> Z),
       groups xs m sizer <> groups xs m (fun x => Z.of_nat (length x)).
Proof.
  intros Hsrc Hcat Hcast. split.
  - unfold coalese_parquets. rewrite Hsrc.
    change (2 ^ 20) with 1048576.
    rewrite coalesce_of_list.
    rewrite (genexp_of_list concat_group _ (first :: others)).
    + rewrite <- (chain_stop (of_list (first :: others))).
      by rewrite (stream_to_parquet_chain _ _ _ _ _ _ Hcast).
    + eapply Forall2_impl; [exact Hcat|]. intros g t. apply concat_group_Some.
  - exists [[1; 2]; [3]], 2, (fun x => foldr Z.add 0 x). by vm_compute.
Qed.

Lemma coalese_parquets_row_count_witness :
  coalese_parquets (H := Sample.externals) "in" "*.parquet" "out" (Some 5) ∅
    = (<["out"%string := Sample.written
           [Sample.frag0;
            Sample.ab [[7; 8]; [9; 10]; [11; 12]; [13; 14]; [15; 16]]]]> ∅,
       Returned tt).
Proof.
  apply (coalese_parquets_row_count (H := Sample.externals) "in" "*.parquet" "out"
           (Some 5) ∅ [Sample.frag0; Sample.frag1; Sample.frag2] Sample.frag0
           [Sample.ab [[7; 8]; [9; 10]; [11; 12]; [13; 14]; [15; 16]]]
           [Sample.ab [[7; 8]; [9; 10]; [11; 12]; [13; 14]; [15; 16]]]).
  - reflexivity.
  - repeat constructor.
  - repeat constructor.
Defined.

(** C9, counterexample.  With the budget 100 the orchestrator writes the three
    fragments (3, 3 and 2 rows; 48, 48 and 32 bytes) as one row group, the
    row-count grouping; sizing by [nbytes] at the same budget groups them as
    two tables, and no argument of [coalese_parquets] selects that sizer. *)
Lemma coalese_parquets_no_sizer :
  (coalese_parquets (H := Sample.externals) "in" "*.parquet" "out" (Some 100) ∅).1
    !! "out"%string
  = Some (Sample.written [Sample.ab [[1; 2]; [3; 4]; [5; 6]; [7; 8]; [9; 10];
                                      [11; 12]; [13; 14]; [15; 16]]])
  /\ groups [Sample.frag0; Sample.frag1; Sample.frag2] 100 (len (Externals := Sample.externals))
     = [[Sample.frag0; Sample.frag1; Sample.frag2]]
  /\ groups [Sample.frag0; Sample.frag1; Sample.frag2] 100 (nbytes (Externals := Sample.externals))
     = [[Sample.frag0; Sample.frag1]; [Sample.frag2]].
Proof. repeat split; vm_compute; reflexivity. Qed.

(** The empty group of C3 and C10 seen from the orchestrator: with the budget
    2 the first fragment (3 rows) is oversized, the concatenation of the empty
    group is refused and the run ends before any file is written. *)
Lemma coalese_parquets_first_oversized_witness :
  coalese_parquets (H := Sample.externals) "in" "*.parquet" "out" (Some 2) ∅
    = (∅, Raised ConcatError).
Proof.
  apply (coalese_parquets_first_oversized (H := Sample.externals) "in" "*.parquet"
           "out" (Some 2) ∅ Sample.frag0 (of_list [Sample.frag1; Sample.frag2])).
  - reflexivity.
  - by vm_compute.
  - reflexivity.
Defined.

(** ** Further facts about [coalesce] *)

Section CoalesceMore.
Context {T : Type}.
Variable max_size : Z.
Variable sizer : T -> Z.

#[local] Abbreviation body' := (coalesce_body max_size sizer).
#[local] Abbreviation loop' := (coalesce_loop max_size sizer).
#[local] Abbreviation run' := (coalesce_run max_size sizer).

(** The generator over items followed by any continuation of the input: the
    groups closed while the items are consumed, then the generator from the
    state reached. *)
Lemma loop_chain (st : acc T) (xs : list T) (tail : Iterable T) :
  loop' st (chain (of_list xs) tail) =
  chain (of_list (run' st xs).1) (loop' (run' st xs).2 tail).
Proof.
  revert st. induction xs as [|x xs IH]; intros st; [done|].
  simpl. destruct (body' st x) as [[g|] st']; simpl; rewrite IH;
    by destruct (run' st' xs).
Qed.

(** The first group yielded from a state starts with the running batch. *)
Lemma head_yielded_loop (st : acc T) (xs : list T) (g : list T)
  (rest : list (list T)) :
  yielded (loop' st (of_list xs)) = g :: rest ->
  exists tl, g = batch st ++ tl.
Proof.
  revert st. induction xs as [|x xs IH]; intros st.
  - simpl of_list. rewrite loop_stop, yielded_of_list.
    destruct (decide _); [done|]. intros [= <- _]. exists []. by rewrite app_nil_r.
  - simpl. destruct (coalesce_body_cases max_size sizer st x) as [[_ ->]|[_ ->]]; simpl.
    + intros [= <- _]. exists []. by rewrite app_nil_r.
    + intros Hy. destruct (IH _ Hy) as [tl ->]. simpl.
      exists (x :: tl). by rewrite <- app_assoc.
Qed.

Lemma closed_by_next_loop (st : acc T) (xs : list T) (gs1 : list (list T))
  (g : list T) (y : T) (h : list T) (gs2 : list (list T)) :
  acc_sized sizer st ->
  yielded (loop' st (of_list xs)) = gs1 ++ g :: (y :: h) :: gs2 ->
  max_size < group_size sizer g + sizer y.
Proof.
  revert st gs1. induction xs as [|x xs IH]; intros st gs1 Hsz.
  - simpl of_list. rewrite loop_stop, yielded_of_list. intros Heq.
    apply (f_equal length) in Heq. rewrite length_app in Heq.
    destruct (decide _); simpl in Heq; lia.
  - simpl. pose proof (acc_sized_body max_size sizer st x Hsz) as Hsz'.
    destruct (coalesce_body_cases max_size sizer st x) as [[Hc Hb]|[Hc Hb]];
      rewrite Hb in Hsz' |- *; simpl in *.
    + destruct gs1 as [|g0 gs1]; simpl.
      * intros [= <- Hnext].
        destruct (head_yielded_loop _ _ _ _ Hnext) as [tl Htl].
        simpl in Htl. injection Htl as -> _.
        unfold acc_sized in Hsz. lia.
      * intros [= _ Hnext]. by apply (IH _ _ Hsz' Hnext).
    + intros Hnext. by apply (IH _ _ Hsz' Hnext).
Qed.

(** Items that fit together into the budget stay in the running batch. *)
Lemma fits_loop (st : acc T) (xs : list T) :
  (forall y, 0 <= sizer y) ->
  current_size st + group_size sizer xs <= max_size ->
  yielded (loop' st (of_list xs)) =
  if decide (batch st ++ xs = []) then [] else [batch st ++ xs].
Proof.
  intros Hs. revert st. induction xs as [|x xs IH]; intros st Hfit.
  - simpl of_list. rewrite loop_stop, yielded_of_list, app_nil_r. by destruct (decide _).
  - simpl in *. pose proof (group_size_nonneg sizer xs Hs) as Hxs.
    rewrite coalesce_body_keep by lia.
    rewrite IH by (simpl; lia). simpl. by rewrite <- app_assoc.
Qed.

End CoalesceMore.

(** ** Further properties of [coalesce] *)

(** X2.  The grouping is greedy: a group followed by another one was closed
    because the first item of the next group did not fit, that is, the size
    of the group plus the size of that item exceeds the budget. *)
Theorem coalesce_closed_by_next {T : Type} (xs : list T) (max_size : Z)
  (sizer : T -> Z) (gs1 : list (list T)) (g : list T) (y : T) (h : list T)
  (gs2 : list (list T)) :
  groups xs max_size sizer = gs1 ++ g :: (y :: h) :: gs2 ->
  max_size < group_size sizer g + sizer y.
Proof. apply closed_by_next_loop. reflexivity. Qed.

Lemma coalesce_closed_by_next_witness :
  10 < group_size (fun x => x) [1; 2] + 11
  /\ 10 < group_size (fun x => x) [4; 4; 1] + 2.
Proof.
  split.
  - apply (coalesce_closed_by_next [1; 2; 11; 4; 4; 1; 2] 10 (fun x => x)
             [] [1; 2] 11 [] [[4; 4; 1]; [2]]).
    reflexivity.
  - apply (coalesce_closed_by_next [1; 2; 11; 4; 4; 1; 2] 10 (fun x => x)
             [[1; 2]; [11]] [4; 4; 1] 2 [] []).
    reflexivity.
Defined.

(** X3.  With a non-negative sizer, a non-empty input whose total size is
    within the budget is emitted as one group: the input itself. *)
Theorem coalesce_single_group {T : Type} (xs : list T) (max_size : Z)
  (sizer : T -> Z) :
  (forall y, 0 <= sizer y) ->
  xs <> [] ->
  group_size sizer xs <= max_size ->
  groups xs max_size sizer = [xs].
Proof.
  intros Hs Hne Hfit. unfold groups, coalesce.
  rewrite fits_loop by (simpl; lia || done). simpl.
  by destruct (decide (xs = [])).
Qed.

Lemma coalesce_single_group_witness :
  groups [4; 4; 2]%nat 10 Z.of_nat = [[4; 4; 2]%nat].
Proof.
  apply (coalesce_single_group [4; 4; 2]%nat 10 Z.of_nat).
  - intros y. lia.
  - discriminate.
  - by vm_compute.
Defined.

(** X4.  When no item alone exceeds the budget, every emitted group is
    non-empty and its total size is within the budget. *)
Theorem coalesce_all_fit {T : Type} (xs : list T) (max_size : Z) (sizer : T -> Z) :
  Forall (fun x => sizer x <= max_size) xs ->
  Forall (fun g => g <> [] /\ group_size sizer g <= max_size)
         (groups xs max_size sizer).
Proof.
  intros Hfit. destruct xs as [|x xs]; [constructor|].
  unfold groups, coalesce. simpl.
  pose proof (Forall_inv Hfit) as Hx. simpl in Hx.
  rewrite coalesce_body_keep by (simpl; lia). simpl.
  set (st := {| batch := [x]; current_size := 0 + sizer x |}).
  assert (acc_sized sizer st) as Hsz by (unfold acc_sized; simpl; lia).
  assert (acc_within max_size sizer st) as Hin.
  { intros _. simpl. lia. }
  pose proof (within_loop max_size sizer st xs Hsz Hin) as Hwithin.
  pose proof (nonempty_loop max_size sizer st xs) as Hne.
  pose proof (concat_yielded_loop max_size sizer st xs) as Hcat.
  rewrite Forall_forall in Hwithin. rewrite Forall_forall in Hfit.
  specialize (Hne ltac:(done)). rewrite Forall_forall in Hne.
  apply Forall_forall. intros g Hg. split; [by apply Hne|].
  apply Hwithin; [done|].
  destruct g as [|y [|z g]]; simpl; [done| |done].
  assert (y ∈ x :: xs) as Hy.
  { change (x :: xs) with (batch st ++ xs). rewrite <- Hcat.
    apply list_elem_of_In, in_concat. exists [y].
    split; [by apply list_elem_of_In | by left]. }
  specialize (Hfit y Hy). simpl in Hfit.
  destruct (Z.gtb_spec (sizer y) max_size); [lia | done].
Qed.

Lemma coalesce_all_fit_witness :
  Forall (fun g => g <> [] /\ group_size (fun x => x) g <= 10)
         (groups [1; 2; 10; 4; 4; 1; 2] 10 (fun x => x)).
Proof.
  apply (coalesce_all_fit [1; 2; 10; 4; 4; 1; 2] 10 (fun x => x)).
  repeat constructor; simpl; lia.
Defined.

(** X5.  When the input raises after some items, the generator raises the
    same exception after the groups it has closed on those items; the items of
    the running batch are never emitted (the closed groups, flattened, and the
    running batch make up the items consumed). *)
Theorem coalesce_input_raises {T : Type} (xs : list T) (e : exn) (max_size : Z)
  (sizer : T -> Z) :
  coalesce (chain (of_list xs) (Raise e)) max_size sizer
    = chain (of_list (coalesce_run max_size sizer acc_init xs).1) (Raise e)
  /\ concat (coalesce_run max_size sizer acc_init xs).1
       ++ batch (coalesce_run max_size sizer acc_init xs).2 = xs.
Proof.
  split.
  - unfold coalesce. by rewrite loop_chain.
  - apply concat_run.
Qed.

(** ** Further facts about the pipeline *)

Section PipelineMore.
Context `{Externals}.

Lemma chain_assoc {A : Type} (s1 s2 s3 : Iterable A) :
  chain (chain s1 s2) s3 = chain s1 (chain s2 s3).
Proof. induction s1 as [|a s1 IH|e]; simpl; [done | by rewrite IH | done]. Qed.

Lemma genexp_chain {A B : Type} (f : A -> result B) (l : list A) (k : list B)
  (tail : Iterable A) :
  Forall2 (fun a b => f a = Returned b) l k ->
  genexp f (chain (of_list l) tail) = chain (of_list k) (genexp f tail).
Proof.
  induction 1 as [|a b l k Hab _ IH]; simpl; [done|].
  by rewrite Hab, IH.
Qed.

Lemma genexp_of_list_inv {A B : Type} (f : A -> result B) (l : list A)
  (k : list B) :
  genexp f (of_list l) = of_list k ->
  Forall2 (fun a b => f a = Returned b) l k.
Proof.
  revert k. induction l as [|a l IH]; intros k; simpl.
  - destruct k; [constructor | done].
  - destruct (f a) as [b|e] eqn:Hfa; [|by destruct k].
    destruct k as [|b' k]; [done|]. simpl. intros [= -> Hk].
    constructor; [done | by apply IH].
Qed.

(** One table per record batch, in order; a reader failure ends the run. *)
Lemma stream_from_parquet_chain (path : string) (bs : list RecordBatch)
  (tail : Iterable RecordBatch) :
  iter_batches path = chain (of_list bs) tail ->
  stream_from_parquet path =
  chain (of_list (map (fun b => from_batches [b]) bs))
        (genexp (fun b => Returned (from_batches [b])) tail).
Proof.
  unfold stream_from_parquet. intros ->.
  apply genexp_chain. induction bs; by constructor.
Qed.

Lemma stream_from_files (good : list (string * list RecordBatch))
  (rest : list string) :
  Forall (fun pb => iter_batches pb.1 = of_list pb.2) good ->
  foldr (fun path r => chain (stream_from_parquet path) r) StopIteration
        (good.*1 ++ rest)
  = chain (of_list (concat (map (fun pb => map (fun b => from_batches [b]) pb.2) good)))
      (foldr (fun path r => chain (stream_from_parquet path) r) StopIteration rest).
Proof.
  induction 1 as [|[path bs] good Hpath _ IH]; [done|].
  rewrite fmap_cons, <- app_comm_cons. cbn [foldr map concat fst snd].
  rewrite IH, of_list_app, chain_assoc. f_equal.
  rewrite (stream_from_parquet_chain path bs StopIteration).
  - simpl. by rewrite chain_stop.
  - simpl in Hpath. by rewrite chain_stop.
Qed.

(** The sink changes the file at its path only. *)
Lemma write_tables_other (path p : string) (sch : Schema)
  (tables : Iterable Table) (fs : gmap string ParquetFile) :
  p <> path -> (write_tables path sch tables fs).1 !! p = fs !! p.
Proof.
  intros Hp. revert fs. induction tables as [|t rest IH|e]; intros fs; simpl; [done| |done].
  destruct (cast t sch) as [t'|]; [|done].
  rewrite IH. unfold write_table. by rewrite lookup_alter_ne.
Qed.

Lemma stream_to_parquet_other (path p : string) (tables : Iterable Table)
  (fs : gmap string ParquetFile) :
  p <> path -> (stream_to_parquet path tables fs).1 !! p = fs !! p.
Proof.
  intros Hp. destruct tables as [|first rest|e]; simpl; [done| |done].
  rewrite write_tables_other by done.
  unfold write_table, ParquetWriter.
  rewrite lookup_alter_ne by done. by rewrite lookup_insert_ne.
Qed.

(** The row groups of a table have its schema when slices do. *)
Lemma row_group_chunks_schema (table : Table) :
  (forall t offset length, schema (slice t offset length) = schema t) ->
  Forall (fun g => schema g = schema table) (row_group_chunks table).
Proof.
  intros Hslice. unfold row_group_chunks.
  destruct (len table <=? max_row_group_length); [by repeat constructor|].
  apply Forall_fmap, Forall_forall. intros chunk _. apply Hslice.
Qed.

(** Whatever the loop of the sink meets, the file keeps the row groups it
    had and gains row groups of the schema only. *)
Lemma write_tables_file (path : string) (sch : Schema) (tables : Iterable Table)
  (gs : list Table) (fs : gmap string ParquetFile) :
  (forall t s t', cast t s = Some t' -> schema t' = s) ->
  (forall t offset length, schema (slice t offset length) = schema t) ->
  exists gs',
    (write_tables path sch tables
       (<[path := {| file_schema := sch; row_groups := gs |}]> fs)).1
    = <[path := {| file_schema := sch; row_groups := gs ++ gs' |}]> fs
    /\ Forall (fun t => schema t = sch) gs'.
Proof.
  intros Hcast Hslice. revert gs.
  induction tables as [|t rest IH|e]; intros gs; simpl.
  - exists []. by rewrite app_nil_r.
  - destruct (cast t sch) as [t'|] eqn:Ht.
    + rewrite write_table_insert.
      destruct (IH (gs ++ row_group_chunks t')) as (gs' & -> & Hgs').
      exists (row_group_chunks t' ++ gs'). rewrite <- app_assoc. split; [done|].
      apply Forall_app. split; [|done].
      rewrite <- (Hcast _ _ _ Ht). by apply row_group_chunks_schema.
    + exists []. by rewrite app_nil_r.
  - exists []. by rewrite app_nil_r.
Qed.

(** A loop of the sink that returns has met tables that all cast. *)
Lemma write_tables_returned (path : string) (sch : Schema) (ts : list Table)
  (gs : list Table) (fs fs' : gmap string ParquetFile) :
  write_tables path sch (of_list ts)
    (<[path := {| file_schema := sch; row_groups := gs |}]> fs) = (fs', Returned tt) ->
  exists ts', Forall2 (fun t t' => cast t sch = Some t') ts ts'
    /\ fs' = <[path := {| file_schema := sch;
                          row_groups := gs ++ row_groups_of ts' |}]> fs.
Proof.
  revert gs. induction ts as [|t ts IH]; intros gs; simpl.
  - intros [= <-]. exists []. split; [constructor | by rewrite app_nil_r].
  - destruct (cast t sch) as [t'|] eqn:Ht; [|done].
    rewrite write_table_insert. intros Hrest.
    destruct (IH _ Hrest) as (ts' & Hts' & ->).
    exists (t' :: ts'). split; [by constructor|].
    change (row_groups_of (t' :: ts')) with (row_group_chunks t' ++ row_groups_of ts').
    by rewrite <- app_assoc.
Qed.

(** A run that meets an exception does not return normally. *)
Lemma write_tables_raises (path : string) (sch : Schema) (ts : list Table)
  (e : exn) (fs : gmap string ParquetFile) :
  exists e', (write_tables path sch (chain (of_list ts) (Raise e)) fs).2 = Raised e'.
Proof.
  revert fs. induction ts as [|t ts IH]; intros fs; simpl; [by exists e|].
  destruct (cast t sch); [apply IH | by eexists].
Qed.

(** The generator expression over a list either yields a table for each
    group or raises after a prefix of them. *)
Lemma genexp_of_list_cases {A B : Type} (f : A -> result B) (l : list A) :
  (exists k, genexp f (of_list l) = of_list k)
  \/ (exists k e, genexp f (of_list l) = chain (of_list k) (Raise e)).
Proof.
  induction l as [|a l IH]; simpl; [left; by exists []|].
  destruct (f a) as [b|e].
  - destruct IH as [[k ->]|(k & e & ->)].
    + left. by exists (b :: k).
    + right. by exists (b :: k), e.
  - right. by exists [], e.
Qed.

End PipelineMore.

(** Consecutive chunks of a list, taken one after the other, make up the
    list. *)
Lemma concat_take_drop_chunks {A : Type} (k size : nat) (l : list A) :
  (length l <= k * size)%nat ->
  concat (map (fun c => take size (drop (c * size) l)) (seq 0 k)) = l.
Proof.
  revert l. induction k as [|k IH]; intros l Hlen.
  - destruct l; [done | simpl in Hlen; lia].
  - rewrite <- cons_seq, <- fmap_S_seq. cbn [map concat].
    rewrite Nat.mul_0_l, drop_0.
    change (map ?f (S <$> ?xs)) with (map f (map S xs)). rewrite map_map.
    transitivity (take size l ++ drop size l); [|apply take_drop].
    f_equal.
    rewrite <- (IH (drop size l)) by (rewrite length_drop; lia).
    f_equal. apply map_ext. intros c. by rewrite drop_drop.
Qed.

(** Rows through concatenation, cast and slicing, for primitives that keep
    them. *)
Section PipelineRows.
Context `{Externals} {R : Type}.
Variable rows_of : Table -> list R.
Hypothesis concat_rows :
  forall g t, concat_tables g = Some t -> rows_of t = concat (map rows_of g).
Hypothesis cast_rows :
  forall t s t', cast t s = Some t' -> rows_of t' = rows_of t.
Hypothesis len_rows : forall t, len t = Z.of_nat (length (rows_of t)).
Hypothesis slice_rows :
  forall t offset length, 0 <= offset -> 0 <= length ->
  rows_of (slice t offset length)
  = take (Z.to_nat length) (drop (Z.to_nat offset) (rows_of t)).

Lemma rows_of_groups (gs : list (list Table)) (ts : list Table) :
  Forall2 (fun g t => concat_group g = Returned t) gs ts ->
  concat (map rows_of ts) = concat (map rows_of (concat gs)).
Proof.
  induction 1 as [|g t gs ts Hg _ IH]; simpl; [done|].
  rewrite map_app, concat_app, IH. f_equal.
  unfold concat_group in Hg.
  destruct (concat_tables g) as [t0|] eqn:Hcat; [|done].
  injection Hg as ->. by apply concat_rows.
Qed.

Lemma rows_of_casts (sch : Schema) (ts ts' : list Table) :
  Forall2 (fun t t' => cast t sch = Some t') ts ts' ->
  map rows_of ts' = map rows_of ts.
Proof.
  induction 1 as [|t t' ts ts' Ht _ IH]; simpl; [done|].
  by rewrite IH, (cast_rows _ _ _ Ht).
Qed.

(** The row groups of a table hold its rows, in order. *)
Lemma rows_of_chunks (table : Table) :
  concat (map rows_of (row_group_chunks table)) = rows_of table.
Proof.
  unfold row_group_chunks.
  assert (0 < max_row_group_length) as Hpos by done.
  revert Hpos. generalize max_row_group_length. intros L HL.
  destruct (Z.leb_spec (len table) L) as [Hle|Hgt].
  { cbn [map concat]. by rewrite app_nil_r. }
  set (n := len table) in *. set (m := (n + L - 1) / L).
  pose proof (Z.mul_div_le (n + L - 1) L HL) as Hlow.
  pose proof (Z.mul_succ_div_gt (n + L - 1) L HL) as Hhigh.
  fold m in Hlow, Hhigh.
  assert (0 <= m) as Hm by (apply Z.div_pos; lia).
  rewrite map_map. unfold seqZ.
  change (map ?f (?g <$> ?xs)) with (map f (map g xs)). rewrite map_map.
  transitivity (concat (map (fun c => take (Z.to_nat L)
                                      (drop (c * Z.to_nat L) (rows_of table)))
                          (seq 0 (Z.to_nat m)))).
  - f_equal. apply map_ext_in. intros c Hc. apply in_seq in Hc.
    assert (Z.of_nat c * L < n) as Hcn by nia.
    rewrite slice_rows by lia.
    replace (Z.to_nat ((Z.of_nat c + 0) * L)) with (c * Z.to_nat L)%nat by nia.
    destruct (Z.min_spec L (n - (Z.of_nat c + 0) * L)) as [[_ ->]|[Hmin ->]]; [done|].
    rewrite !take_ge; [done | |]; rewrite length_drop;
      pose proof (len_rows table); fold n in H0; nia.
  - apply concat_take_drop_chunks.
    pose proof (len_rows table) as Hn. fold n in Hn. nia.
Qed.

Lemma rows_of_row_groups (tables : list Table) :
  concat (map rows_of (row_groups_of tables)) = concat (map rows_of tables).
Proof.
  unfold row_groups_of. induction tables as [|t ts IH]; [done|].
  cbn [map concat]. by rewrite map_app, concat_app, IH, rows_of_chunks.
Qed.

End PipelineRows.

(** ** Further properties of the source, the sink, the orchestrator and [main] *)

(** X6.  [stream_from_dir] yields, for the files that [glob] lists in its
    order, one table per record batch of each file in the file's order.  When a
    file's reader fails, the run raises that exception after the tables of the
    files before it and of the batches read from it; the files listed after it
    are not read. *)
Theorem stream_from_dir_files `{Externals} (directory pattern : string)
  (good : list (string * list RecordBatch)) :
  Forall (fun pb => iter_batches pb.1 = of_list pb.2) good ->
  (glob directory pattern = good.*1 ->
   stream_from_dir directory (Some pattern)
   = of_list (concat (map (fun pb => map (fun b => from_batches [b]) pb.2) good)))
  /\ (forall bad bs e later,
        glob directory pattern = good.*1 ++ bad :: later ->
        iter_batches bad = chain (of_list bs) (Raise e) ->
        stream_from_dir directory (Some pattern)
        = chain (of_list (concat (map (fun pb => map (fun b => from_batches [b]) pb.2) good)
                          ++ map (fun b => from_batches [b]) bs))
                (Raise e)).
Proof.
  intros Hgood. unfold stream_from_dir. cbn [from_option id]. split.
  - intros ->. rewrite <- (app_nil_r (good.*1)).
    rewrite (stream_from_files good [] Hgood). simpl. by rewrite chain_stop.
  - intros bad bs e later -> Hbad.
    rewrite (stream_from_files good (bad :: later) Hgood). cbn [foldr].
    rewrite (stream_from_parquet_chain bad bs (Raise e) Hbad). simpl genexp.
    rewrite of_list_app, !chain_assoc. done.
Qed.

Lemma stream_from_dir_files_witness :
  stream_from_dir (H := Sample.externals) "in" (Some "*.parquet"%string)
    = of_list [Sample.frag0; Sample.frag1; Sample.frag2]
  /\ stream_from_dir (H := SampleBroken.externals) "in" (Some "*.parquet"%string)
    = chain (of_list [Sample.frag0; Sample.frag1]) (Raise FormatError).
Proof.
  split.
  - apply (proj1 (stream_from_dir_files (H := Sample.externals) "in" "*.parquet"
      [("in/0.parquet"%string, [Sample.frag0; Sample.frag1]);
       ("in/1.parquet"%string, [Sample.frag2])]
      ltac:(repeat constructor))).
    reflexivity.
  - apply (proj2 (stream_from_dir_files (H := SampleBroken.externals) "in" "*.parquet"
      [("in/0.parquet"%string, [Sample.frag0; Sample.frag1])]
      ltac:(repeat constructor))
      "in/broken.parquet"%string [] FormatError ["in/1.parquet"%string]).
    + reflexivity.
    + reflexivity.
Defined.

(** X7.  The sink, the orchestrator and [main] change no file other than the
    output path: every other path of the file system holds what it held. *)
Theorem stream_to_parquet_other_paths `{Externals} (path p : string)
  (fs : gmap string ParquetFile) :
  p <> path ->
  (forall tables, (stream_to_parquet path tables fs).1 !! p = fs !! p)
  /\ (forall in_directory pattern max_size,
        (coalese_parquets in_directory pattern path max_size fs).1 !! p = fs !! p)
  /\ (forall in_directory pattern extra,
        (main (Some (in_directory :: pattern :: path :: extra)) fs).1 !! p = fs !! p).
Proof.
  intros Hp. split; [|split].
  - intros tables. by apply stream_to_parquet_other.
  - intros d pat ms. unfold coalese_parquets. by apply stream_to_parquet_other.
  - intros d pat extra. unfold main. cbn [lookup list_lookup].
    pose proof (stream_to_parquet_other path p
      (genexp concat_group (coalesce (stream_from_dir d (Some pat)) (2 ^ 20) len))
      fs Hp) as Hother.
    unfold coalese_parquets. cbn [from_option id].
    by destruct (stream_to_parquet _ _ fs).
Qed.

Lemma stream_to_parquet_other_paths_witness :
  (main (H := Sample.externals) (Some ["in"; "*.parquet"; "out"]%string)
     {["kept"%string := Sample.written [Sample.frag2]]}).1 !! "kept"%string
  = Some (Sample.written [Sample.frag2]).
Proof.
  rewrite (proj2 (proj2 (stream_to_parquet_other_paths (H := Sample.externals)
    "out" "kept" {["kept"%string := Sample.written [Sample.frag2]]}
    ltac:(discriminate))) "in"%string "*.parquet"%string []).
  reflexivity.
Defined.

(** X8.  When a successful cast returns a table of the target schema and a
    slice of a table has the table's schema, then whatever follows the first
    table (tables that cast, a table that does not, an exception of the
    input), the file at the output path has the first table's schema, starts
    with the row groups of the first table, and every row group in it has that
    schema. *)
Theorem stream_to_parquet_uniform_schema `{Externals} (path : string)
  (first : Table) (rest : Iterable Table) (fs : gmap string ParquetFile) :
  (forall t s t', cast t s = Some t' -> schema t' = s) ->
  (forall t offset length, schema (slice t offset length) = schema t) ->
  exists gs,
    (stream_to_parquet path (Yield first rest) fs).1 !! path
    = Some {| file_schema := schema first;
              row_groups := row_group_chunks first ++ gs |}
    /\ Forall (fun t => schema t = schema first) (row_group_chunks first ++ gs).
Proof.
  intros Hcast Hslice. cbn [stream_to_parquet]. unfold ParquetWriter.
  rewrite write_table_insert.
  destruct (write_tables_file path (schema first) rest
              ([] ++ row_group_chunks first) fs Hcast Hslice) as (gs & -> & Hgs).
  exists gs. split; [by rewrite lookup_insert_eq|].
  apply Forall_app. split; [by apply row_group_chunks_schema | done].
Qed.

Lemma stream_to_parquet_uniform_schema_witness :
  (exists gs,
    (stream_to_parquet (H := Sample.externals) "out"
       (Yield Sample.frag0 (of_list [Sample.frag1; Sample.only_a; Sample.frag2])) ∅).1
      !! "out"%string
    = Some (Sample.written (Sample.frag0 :: gs))
    /\ Forall (fun t => Sample.columns t = Sample.columns Sample.frag0)
              (Sample.frag0 :: gs))
  /\ (exists gs,
    (stream_to_parquet (H := Ranges.externals) "out"
       (Yield (Ranges.range 0 1048577) (of_list [Ranges.range 1048577 5])) ∅).1
      !! "out"%string
    = Some (Ranges.written (Ranges.range 0 1048576 :: Ranges.range 1048576 1 :: gs))
    /\ Forall (fun t => Ranges.columns t = ["a"; "b"]%string)
              (Ranges.range 0 1048576 :: Ranges.range 1048576 1 :: gs)).
Proof.
  split.
  - destruct (stream_to_parquet_uniform_schema (H := Sample.externals) "out"
                Sample.frag0 (of_list [Sample.frag1; Sample.only_a; Sample.frag2]) ∅)
      as (gs & Hfile & Hall).
    + intros t s t'. simpl. unfold Sample.table_cast.
      destruct (decide (Sample.columns t = s)); [by intros [= <-] | done].
    + reflexivity.
    + exists gs. split; [exact Hfile | exact Hall].
  - destruct (stream_to_parquet_uniform_schema (H := Ranges.externals) "out"
                (Ranges.range 0 1048577) (of_list [Ranges.range 1048577 5]) ∅)
      as (gs & Hfile & Hall).
    + intros t s t'. simpl. unfold Ranges.table_cast.
      destruct (decide (Ranges.columns t = s)); [by intros [= <-] | done].
    + reflexivity.
    + exists gs. split; [exact Hfile | exact Hall].
Defined.

(** X9.  End to end, for primitives that keep rows (the concatenation of a
    group holds the rows of its tables in order, a cast keeps the rows, a slice
    holds the rows of its range, [len] counts the rows): when the fragment
    source yields the fragments of a non-empty list and the run returns
    normally, the row groups of the output file hold, in order, the rows of the
    fragments: no row is lost, duplicated or reordered. *)
Theorem coalese_parquets_preserves_rows `{Externals} {R : Type}
  (rows_of : Table -> list R) (in_directory pattern outpath : string)
  (max_size : option Z) (fs fs' : gmap string ParquetFile)
  (fragments : list Table) :
  (forall g t, concat_tables g = Some t -> rows_of t = concat (map rows_of g)) ->
  (forall t s t', cast t s = Some t' -> rows_of t' = rows_of t) ->
  (forall t, len t = Z.of_nat (length (rows_of t))) ->
  (forall t offset length, 0 <= offset -> 0 <= length ->
     rows_of (slice t offset length)
     = take (Z.to_nat length) (drop (Z.to_nat offset) (rows_of t))) ->
  stream_from_dir in_directory (Some pattern) = of_list fragments ->
  fragments <> [] ->
  coalese_parquets in_directory pattern outpath max_size fs = (fs', Returned tt) ->
  exists f,
    fs' !! outpath = Some f
    /\ concat (map rows_of (row_groups f)) = concat (map rows_of fragments).
Proof.
  intros Hcat Hcast Hlen Hslice Hsrc Hne. unfold coalese_parquets. rewrite Hsrc.
  change (2 ^ 20) with 1048576. rewrite coalesce_of_list.
  set (gs := groups fragments (default 1048576 max_size) len).
  assert (concat gs = fragments) as Hflat.
  { unfold gs, groups, coalesce. by rewrite concat_yielded_loop. }
  destruct (genexp_of_list_cases concat_group gs) as [[ts Hts]|(k & e & Hk)].
  - rewrite Hts. pose proof (genexp_of_list_inv _ _ _ Hts) as Hall.
    destruct ts as [|first ts].
    + apply Forall2_nil_inv_r in Hall. rewrite Hall in Hflat. by destruct Hne.
    + cbn [of_list stream_to_parquet]. unfold ParquetWriter.
      rewrite write_table_insert. intros Hres.
      destruct (write_tables_returned _ _ _ _ _ _ Hres) as (ts' & Hts' & ->).
      eexists. split; [by apply lookup_insert_eq|]. cbn [row_groups].
      change (([] ++ row_group_chunks first) ++ row_groups_of ts')
        with (row_groups_of (first :: ts')).
      rewrite (rows_of_row_groups rows_of Hlen Hslice). cbn [map concat].
      rewrite (rows_of_casts rows_of Hcast _ _ _ Hts').
      rewrite <- Hflat.
      by rewrite <- (rows_of_groups rows_of Hcat _ _ Hall).
  - rewrite Hk. destruct k as [|first k]; [done|].
    cbn [of_list chain stream_to_parquet]. intros Hres.
    destruct (write_tables_raises outpath (schema first) k e
      (write_table outpath first (ParquetWriter outpath (schema first) fs)))
      as [e' He'].
    rewrite Hres in He'. done.
Qed.

Lemma coalese_parquets_preserves_rows_witness :
  exists f,
    (coalese_parquets (H := Sample.externals) "in" "*.parquet" "out" (Some 5) ∅).1
      !! "out"%string = Some f
    /\ concat (map Sample.rows (row_groups f))
       = concat (map Sample.rows [Sample.frag0; Sample.frag1; Sample.frag2]).
Proof.
  apply (coalese_parquets_preserves_rows (H := Sample.externals) Sample.rows
           "in" "*.parquet" "out" (Some 5) ∅
           (coalese_parquets (H := Sample.externals) "in" "*.parquet" "out" (Some 5) ∅).1
           [Sample.frag0; Sample.frag1; Sample.frag2]).
  - intros g t. simpl. unfold Sample.table_concat.
    destruct g as [|t0 g]; [done|].
    destruct (forallb _ _); [by intros [= <-] | done].
  - intros t s t'. simpl. unfold Sample.table_cast.
    destruct (decide _); [by intros [= <-] | done].
  - reflexivity.
  - reflexivity.
  - reflexivity.
  - discriminate.
  - vm_compute. reflexivity.
Defined.

(** X10.  With fewer than three arguments [main] raises [IndexError] before
    anything is read or written: the file system is left as it was. *)
Theorem main_short_argv `{Externals} (argv : list string)
  (fs : gmap string ParquetFile) :
  (length argv < 3)%nat ->
  main (Some argv) fs = (fs, Raised IndexError).
Proof.
  intros Hlen. unfold main.
  destruct argv as [|a0 [|a1 [|a2 argv]]]; simpl in *; [done..|lia].
Qed.

Lemma main_short_argv_witness :
  main (H := Sample.externals) (Some ["in"; "*.parquet"]%string) ∅
  = (∅, Raised IndexError).
Proof.
  apply (main_short_argv (H := Sample.externals) ["in"; "*.parquet"]%string ∅).
  simpl. lia.
Defined.

(** X11.  When the fragment source raises after some fragments, the run
    raises the same exception.  Only the groups closed before the failure are
    written: if none was closed no file is created, otherwise (when they
    concatenate and cast) the file holds the row groups of their
    concatenations, and the fragments of the running batch are not written. *)
Theorem coalese_parquets_source_raises `{Externals}
  (in_directory pattern outpath : string) (max_size : option Z)
  (fs : gmap string ParquetFile) (fragments : list Table) (e : exn) :
  stream_from_dir in_directory (Some pattern) = chain (of_list fragments) (Raise e) ->
  ((coalesce_run (default 1048576 max_size) len acc_init fragments).1 = [] ->
   coalese_parquets in_directory pattern outpath max_size fs = (fs, Raised e))
  /\ (forall first others others',
        Forall2 (fun group table => concat_tables group = Some table)
          (coalesce_run (default 1048576 max_size) len acc_init fragments).1
          (first :: others) ->
        Forall2 (fun t t' => cast t (schema first) = Some t') others others' ->
        coalese_parquets in_directory pattern outpath max_size fs
        = (<[outpath := {| file_schema := schema first;
                           row_groups := row_groups_of (first :: others') |}]> fs,
           Raised e)).
Proof.
  intros Hsrc. unfold coalese_parquets. rewrite Hsrc.
  change (2 ^ 20) with 1048576. unfold coalesce. rewrite loop_chain.
  cbn [coalesce_loop]. split.
  - by intros ->.
  - intros first others others' Hcat Hcast.
    rewrite (genexp_chain concat_group _ (first :: others)).
    + cbn [genexp]. by rewrite (stream_to_parquet_chain _ _ _ _ _ _ Hcast).
    + eapply Forall2_impl; [exact Hcat|]. intros g t. apply concat_group_Some.
Qed.

Lemma coalese_parquets_source_raises_witness :
  coalese_parquets (H := SampleBroken.externals) "in" "*.parquet" "out" (Some 5) ∅
  = (<["out"%string := SampleBroken.written [Sample.frag0]]> ∅, Raised FormatError).
Proof.
  apply (proj2 (coalese_parquets_source_raises (H := SampleBroken.externals)
           "in" "*.parquet" "out" (Some 5) ∅ [Sample.frag0; Sample.frag1] FormatError
           ltac:(reflexivity)) Sample.frag0 [] []).
  - repeat constructor.
  - constructor.
Defined.

(** X12.  When the row counts are non-negative and the fragments of a
    non-empty input have at most the maximum group size of rows in total, the
    run writes one table, the concatenation of all the fragments: the file
    holds the row groups of that table, which is one row group when the table
    has at most [max_row_group_length] rows. *)
Theorem coalese_parquets_single_row_group `{Externals}
  (in_directory pattern outpath : string) (max_size : option Z)
  (fs : gmap string ParquetFile) (fragments : list Table) (table : Table) :
  (forall t, 0 <= len t) ->
  stream_from_dir in_directory (Some pattern) = of_list fragments ->
  fragments <> [] ->
  group_size len fragments <= default 1048576 max_size ->
  concat_tables fragments = Some table ->
  coalese_parquets in_directory pattern outpath max_size fs
  = (<[outpath := {| file_schema := schema table;
                     row_groups := row_group_chunks table |}]> fs,
     Returned tt)
  /\ (len table <= max_row_group_length -> row_group_chunks table = [table]).
Proof.
  intros Hlen Hsrc Hne Hfit Hcat. split; [|apply row_group_chunks_small].
  unfold coalese_parquets. rewrite Hsrc.
  change (2 ^ 20) with 1048576. rewrite coalesce_of_list.
  unfold groups, coalesce. rewrite fits_loop by (simpl; lia || done).
  simpl batch. simpl app. destruct (decide (fragments = [])); [done|].
  cbn [yielded of_list genexp]. unfold concat_group. rewrite Hcat.
  cbn [stream_to_parquet write_tables].
  unfold ParquetWriter. by rewrite write_table_insert.
Qed.

Lemma coalese_parquets_single_row_group_witness :
  coalese_parquets (H := Sample.externals) "in" "*.parquet" "out" None ∅
  = (<["out"%string := Sample.written
         [Sample.ab [[1; 2]; [3; 4]; [5; 6]; [7; 8]; [9; 10]; [11; 12];
                     [13; 14]; [15; 16]]]]> ∅,
     Returned tt).
Proof.
  apply (coalese_parquets_single_row_group (H := Sample.externals)
           "in" "*.parquet" "out" None ∅ [Sample.frag0; Sample.frag1; Sample.frag2]
           (Sample.ab [[1; 2]; [3; 4]; [5; 6]; [7; 8]; [9; 10]; [11; 12];
                       [13; 14]; [15; 16]])).
  - intros t. simpl. lia.
  - reflexivity.
  - discriminate.
  - by vm_compute.
  - reflexivity.
Defined.

(** ** Properties of [filter_finemapped_results.main] *)

Section FilterFacts.
Context `{Filter.Pandas}.

(** Reading a list of paths goes through the frame reached after a prefix. *)
Lemma read_all_app (df : Filter.DataFrame) (xs ys : list string) :
  Filter.read_all df (xs ++ ys) =
  match Filter.read_all df xs with
  | inr df' => Filter.read_all df' ys
  | inl e => inl e
  end.
Proof.
  revert df. induction xs as [|x xs IH]; intros df; simpl; [done|].
  destruct (Filter.frame_len df =? 0), (Filter.read_csv x) as [e|d]; try done.
  destruct (Filter.concat_sorted df d); [done | apply IH].
Qed.

(** Files without rows read into a frame without rows leave a frame without
    rows. *)
Lemma read_all_empties (df : Filter.DataFrame) (empties : list string) :
  Filter.frame_len df = 0 ->
  Forall (fun q => exists d0, Filter.read_csv q = inr d0 /\ Filter.frame_len d0 = 0)
         empties ->
  exists df', Filter.read_all df empties = inr df' /\ Filter.frame_len df' = 0.
Proof.
  intros Hdf Hall. revert df Hdf.
  induction Hall as [|q empties (d0 & Hq & Hd0) _ IH]; intros df Hdf; simpl.
  - by exists df.
  - rewrite Hdf, Hq. simpl. by apply IH.
Qed.

End FilterFacts.

(** X13.  Input files without rows that come before the first other file
    contribute nothing to the output, not even their columns: while the frame
    read so far has no row the next file replaces it instead of being
    concatenated to it, so the run gives what it gives without those files. *)
Theorem filter_main_skips_leading_empty `{Filter.Pandas} (empties : list string)
  (p : string) (rest : list string) (strat out : string)
  (fs : gmap string Filter.DataFrame) :
  Filter.frame_len Filter.empty_frame = 0 ->
  Forall (fun q => exists d0, Filter.read_csv q = inr d0 /\ Filter.frame_len d0 = 0)
         empties ->
  Filter.main {| Filter.inputPath := empties ++ p :: rest;
                 Filter.strategy := strat; Filter.outputPath := out |} fs
  = Filter.main {| Filter.inputPath := p :: rest;
                   Filter.strategy := strat; Filter.outputPath := out |} fs.
Proof.
  intros Hempty Hall. unfold Filter.main. cbn [Filter.inputPath].
  rewrite read_all_app.
  destruct (read_all_empties _ _ Hempty Hall) as (df' & -> & Hdf').
  cbn [Filter.read_all]. by rewrite Hempty, Hdf'.
Qed.

Lemma filter_main_skips_leading_empty_witness :
  Filter.main (H := Filter.sample_pandas)
    {| Filter.inputPath := ["header.tsv"] ++ "rows.tsv" :: ["more.tsv"];
       Filter.strategy := "naive"; Filter.outputPath := "out.tsv" |}%string ∅
  = Filter.main (H := Filter.sample_pandas)
      {| Filter.inputPath := "rows.tsv" :: ["more.tsv"];
         Filter.strategy := "naive"; Filter.outputPath := "out.tsv" |}%string ∅.
Proof.
  apply (filter_main_skips_leading_empty (H := Filter.sample_pandas)
           ["header.tsv"%string] "rows.tsv" ["more.tsv"%string] "naive" "out.tsv" ∅).
  - reflexivity.
  - constructor; [|constructor]. eexists. split; reflexivity.
Defined.

(** X14.  An input file that cannot be read stops the script before anything
    is written: when the files before it have been read and concatenated, the
    exception of the failing [read_csv] is the outcome of [main], whatever
    paths follow, and the file system is left as it was. *)
Theorem filter_main_read_fails `{Filter.Pandas} (pre : list string) (bad : string)
  (rest : list string) (strat out : string) (fs : gmap string Filter.DataFrame)
  (df : Filter.DataFrame) (e : Filter.PandasError) :
  Filter.read_all Filter.empty_frame pre = inr df ->
  Filter.read_csv bad = inl e ->
  Filter.main {| Filter.inputPath := pre ++ bad :: rest;
                 Filter.strategy := strat; Filter.outputPath := out |} fs
  = (fs, inl e).
Proof.
  intros Hpre Hbad. unfold Filter.main. cbn [Filter.inputPath].
  rewrite read_all_app, Hpre. cbn [Filter.read_all]. rewrite Hbad.
  by destruct (Filter.frame_len df =? 0).
Qed.

Lemma filter_main_read_fails_witness :
  Filter.main (H := Filter.sample_pandas)
    {| Filter.inputPath := ["rows.tsv"] ++ "missing.tsv" :: ["more.tsv"];
       Filter.strategy := "no_filter"; Filter.outputPath := "out.tsv" |}%string ∅
  = (∅, inl "FileNotFoundError"%string).
Proof.
  apply (filter_main_read_fails (H := Filter.sample_pandas)
           ["rows.tsv"%string] "missing.tsv" ["more.tsv"%string] "no_filter" "out.tsv" ∅
           Sample.frag0 "FileNotFoundError"%string).
  - reflexivity.
  - reflexivity.
Defined.
